(** * rangeutil: time-range descriptions and interval rounding

    A shallow embedding of [packages/grafana-data/src/datetime/rangeutil.ts]
    together with the fragment of the JavaScript runtime the module relies on
    (numbers, strings, [Number], [parseInt], [toFixed], regular expressions,
    plain objects used as dictionaries) and of the moment.js instants it
    receives.

    Modelling conventions.
    - A JavaScript number is [NaN], an infinity, or a finite value carried as
      an exact rational.  The special values follow IEEE-754 as ECMAScript
      prescribes; finite arithmetic is exact (no binary64 rounding, overflow
      or underflow, no negative zero).  Every result kept in a record is
      normalised with [Qred], so equal values are equal terms.  A property
      that gives the value of an arithmetic result is stated where binary64
      arithmetic gives that value too: on integers that do not exceed
      [MAX_SAFE_INTEGER], which binary64 adds, subtracts, multiplies, reads
      and prints without rounding, and on their quotients by the integer
      constants of the module where only [Math.floor] or [toFixed] of the
      quotient is used.
    - A string is a [string] of bytes (UTF-8); every character the module
      tests ([\d], [\w], [+], [$], the letters of [now]) is ASCII.
    - A thrown [Error] is the left injection of a sum.
    - Objects used as dictionaries are [gmap string _]; the one whose key
      order is observable ([Object.keys]) is an association list. *)

From Stdlib Require Import QArith Qabs Qround ZArith Ascii String List Lia.
From Stdlib Require Import DecimalString DecimalZ DecimalPos DecimalN DecimalFacts.
From stdpp Require Import gmap strings list fin_maps.

Open Scope string_scope.

(* ===================================================================== *)
(** * Part I — definitions                                                *)
(* ===================================================================== *)

(** ** JavaScript numbers *)

Inductive number : Type :=
| NaN
| Inf (negative : bool)
| Fin (q : Q).

Declare Scope js_scope.
Delimit Scope js_scope with js.

Definition num (z : Z) : number := Fin (inject_Z z).

(** [Number.MAX_SAFE_INTEGER], 2^53 - 1: up to it every integer is a
    binary64 value and has no other integer rounded to it. *)
Definition MAX_SAFE_INTEGER : Z := 9007199254740991.

Definition Qltb (p q : Q) : bool := negb (Qle_bool q p).

(** [a < b]: false as soon as one side is [NaN]. *)
Definition num_lt (a b : number) : bool :=
  match a, b with
  | NaN, _ | _, NaN => false
  | Fin p, Fin q => Qltb p q
  | Inf true, Inf true => false
  | Inf true, _ => true
  | _, Inf true => false
  | Inf false, _ => false
  | Fin _, Inf false => true
  end.

Definition num_gt (a b : number) : bool := num_lt b a.

(** [a === b] on numbers. *)
Definition num_eq (a b : number) : bool :=
  match a, b with
  | Fin p, Fin q => Qeq_bool p q
  | Inf s, Inf t => Bool.eqb s t
  | _, _ => false
  end.

(** ToBoolean on a number: [0] and [NaN] are falsy. *)
Definition truthy (a : number) : bool :=
  match a with
  | NaN => false
  | Inf _ => true
  | Fin q => negb (Qeq_bool q 0)
  end.

Definition Qsign_neg (q : Q) : bool := Qltb q 0.

Definition num_neg (a : number) : number :=
  match a with
  | NaN => NaN
  | Inf s => Inf (negb s)
  | Fin q => Fin (Qred (- q))
  end.

Definition num_add (a b : number) : number :=
  match a, b with
  | NaN, _ | _, NaN => NaN
  | Inf s, Inf t => if Bool.eqb s t then Inf s else NaN
  | Inf s, Fin _ | Fin _, Inf s => Inf s
  | Fin p, Fin q => Fin (Qred (p + q))
  end.

Definition num_sub (a b : number) : number := num_add a (num_neg b).

Definition num_mul (a b : number) : number :=
  match a, b with
  | NaN, _ | _, NaN => NaN
  | Inf s, Inf t => Inf (xorb s t)
  | Inf s, Fin q | Fin q, Inf s =>
      if Qeq_bool q 0 then NaN else Inf (xorb s (Qsign_neg q))
  | Fin p, Fin q => Fin (Qred (p * q))
  end.

Definition num_div (a b : number) : number :=
  match a, b with
  | NaN, _ | _, NaN => NaN
  | Inf _, Inf _ => NaN
  | Inf s, Fin q => Inf (xorb s (Qsign_neg q))
  | Fin _, Inf _ => Fin 0
  | Fin p, Fin q =>
      if Qeq_bool q 0
      then (if Qeq_bool p 0 then NaN else Inf (Qsign_neg p))
      else Fin (Qred (p / q))
  end.

(** Truncation toward zero, the quotient behind the [%] operator. *)
Definition Qtrunc (q : Q) : Z := if Qsign_neg q then Qceiling q else Qfloor q.

(** [a % b]: the remainder takes the sign of the dividend. *)
Definition num_rem (a b : number) : number :=
  match a, b with
  | NaN, _ | _, NaN => NaN
  | Inf _, _ => NaN
  | Fin p, Inf _ => Fin (Qred p)
  | Fin p, Fin q =>
      if Qeq_bool q 0 then NaN
      else Fin (Qred (p - q * inject_Z (Qtrunc (p / q))))
  end.

Definition Math_floor (a : number) : number :=
  match a with
  | Fin q => Fin (inject_Z (Qfloor q))
  | _ => a
  end.

Infix "<#" := num_lt (at level 70, no associativity) : js_scope.
Infix ">#" := num_gt (at level 70, no associativity) : js_scope.
Infix "+#" := num_add (at level 50, left associativity) : js_scope.
Infix "-#" := num_sub (at level 50, left associativity) : js_scope.
Infix "*#" := num_mul (at level 40, left associativity) : js_scope.
Infix "/#" := num_div (at level 40, left associativity) : js_scope.
Infix "%#" := num_rem (at level 40, left associativity) : js_scope.

(** ** JavaScript strings and conversions *)

Definition dquote : string := String "034"%char "".

Fixpoint starts_with (p s : string) : bool :=
  match p, s with
  | EmptyString, _ => true
  | String a p', String b s' => Ascii.eqb a b && starts_with p' s'
  | String _ _, EmptyString => false
  end.

Fixpoint drop_string (n : nat) (s : string) : string :=
  match n, s with
  | S n', String _ s' => drop_string n' s'
  | _, _ => s
  end.

Fixpoint take_string (n : nat) (s : string) : string :=
  match n, s with
  | S n', String c s' => String c (take_string n' s')
  | _, _ => EmptyString
  end.

(** [String.prototype.indexOf]: the least position where [sub] occurs,
    [-1] when there is none. *)
Fixpoint indexOf_from (pos : Z) (s sub : string) : Z :=
  if starts_with sub s then pos
  else match s with
       | EmptyString => (-1)%Z
       | String _ s' => indexOf_from (pos + 1) s' sub
       end.

Definition indexOf (s sub : string) : Z := indexOf_from 0 s sub.

Definition byte_is (c : ascii) (n : N) : bool := N.eqb (N_of_ascii c) n.
Definition byte_in (c : ascii) (lo hi : N) : bool :=
  N.leb lo (N_of_ascii c) && N.leb (N_of_ascii c) hi.

(** WhiteSpace and LineTerminator in ASCII: TAB, LF, VT, FF, CR, SP. *)
Definition is_ascii_space (c : ascii) : bool :=
  byte_in c 9 13 || byte_is c 32.

(** Strips leading white space, including the code points outside ASCII
    (U+00A0, U+1680, U+2000..U+200A, U+2028, U+2029, U+202F, U+205F,
    U+3000, U+FEFF) in their UTF-8 encoding. *)
Fixpoint skip_ws (s : string) : string :=
  match s with
  | String c0 s0 =>
      if is_ascii_space c0 then skip_ws s0
      else
        match s0 with
        | String c1 s1 =>
            if byte_is c0 194 && byte_is c1 160 then skip_ws s1
            else
              match s1 with
              | String c2 s2 =>
                  if (byte_is c0 225 && byte_is c1 154 && byte_is c2 128)
                     || (byte_is c0 226 && byte_is c1 128
                         && (byte_in c2 128 138 || byte_in c2 168 169
                             || byte_is c2 175))
                     || (byte_is c0 226 && byte_is c1 129 && byte_is c2 159)
                     || (byte_is c0 227 && byte_is c1 128 && byte_is c2 128)
                     || (byte_is c0 239 && byte_is c1 187 && byte_is c2 191)
                  then skip_ws s2
                  else s
              | EmptyString => s
              end
        | EmptyString => s
        end
  | EmptyString => s
  end.

(** The value of a character as a digit in bases up to 36. *)
Definition digit_value (c : ascii) : option Z :=
  let n := Z.of_N (N_of_ascii c) in
  if byte_in c 48 57 then Some (n - 48)%Z
  else if byte_in c 97 122 then Some (n - 87)%Z
  else if byte_in c 65 90 then Some (n - 55)%Z
  else None.

(** Reads the longest run of radix-[r] digits: its value, its length and
    what follows. *)
Fixpoint read_digits (r : Z) (acc : Z) (n : nat) (s : string) : Z * nat * string :=
  match s with
  | String c s' =>
      match digit_value c with
      | Some d => if (d <? r)%Z then read_digits r (acc * r + d) (S n) s'
                  else (acc, n, s)
      | None => (acc, n, s)
      end
  | EmptyString => (acc, n, s)
  end.

Definition pow10 (e : Z) : Q :=
  if (e <? 0)%Z then / inject_Z (10 ^ (- e)) else inject_Z (10 ^ e).

(** An optional leading sign: [true] for [-]. *)
Definition read_sign (s : string) : bool * string :=
  match s with
  | String c s' =>
      if byte_is c 45 then (true, s')
      else if byte_is c 43 then (false, s')
      else (false, s)
  | EmptyString => (false, s)
  end.

(** ExponentPart, when one is present. *)
Definition read_exponent (s : string) : Z * string :=
  match s with
  | String c s1 =>
      if byte_is c 101 || byte_is c 69 then
        let '(neg, s2) := read_sign s1 in
        let '(e, n, s3) := read_digits 10 0 0 s2 in
        match n with
        | O => (0%Z, s)
        | S _ => (if neg then (- e)%Z else e, s3)
        end
      else (0%Z, s)
  | EmptyString => (0%Z, s)
  end.

Definition with_exponent (m : Q) (r : string) : option (Q * string) :=
  let '(e, r') := read_exponent r in Some ((m * pow10 e)%Q, r').

(** StrUnsignedDecimalLiteral without its [Infinity] alternative:
    [digits . digits? exp?], [. digits exp?] or [digits exp?]. *)
Definition read_decimal (s : string) : option (Q * string) :=
  let '(ip, n1, r1) := read_digits 10 0 0 s in
  match r1 with
  | String c r2 =>
      if byte_is c 46 then
        let '(fp, n2, r3) := read_digits 10 0 0 r2 in
        match n1, n2 with
        | O, O => None
        | _, _ =>
            with_exponent
              (inject_Z ip + inject_Z fp / inject_Z (10 ^ Z.of_nat n2))%Q r3
        end
      else match n1 with O => None | S _ => with_exponent (inject_Z ip) r1 end
  | EmptyString =>
      match n1 with O => None | S _ => with_exponent (inject_Z ip) r1 end
  end.

(** StrDecimalLiteral: an optional sign, then [Infinity] or a decimal. *)
Definition read_signed_decimal (s : string) : option (number * string) :=
  let '(neg, s1) := read_sign s in
  if starts_with "Infinity" s1 then Some (Inf neg, drop_string 8 s1)
  else match read_decimal s1 with
       | Some (q, r) => Some (Fin (Qred (if neg then - q else q)), r)
       | None => None
       end.

(** NonDecimalIntegerLiteral: [0x], [0o] or [0b] and at least one digit. *)
Definition read_non_decimal (s : string) : option (number * string) :=
  match s with
  | String c0 (String c1 s') =>
      let radix :=
        if byte_is c1 120 || byte_is c1 88 then Some 16%Z
        else if byte_is c1 111 || byte_is c1 79 then Some 8%Z
        else if byte_is c1 98 || byte_is c1 66 then Some 2%Z
        else None in
      match byte_is c0 48, radix with
      | true, Some r =>
          let '(v, n, rest) := read_digits r 0 0 s' in
          match n with O => None | S _ => Some (num v, rest) end
      | _, _ => None
      end
  | _ => None
  end.

(** [Number(str)], i.e. StringToNumber: white space is trimmed on both
    sides, the empty string is [0], and anything that is not a complete
    numeric literal is [NaN]. *)
Definition Number (str : string) : number :=
  let s := skip_ws str in
  match s with
  | EmptyString => num 0
  | _ =>
      let parsed :=
        match read_non_decimal s with
        | Some r => Some r
        | None => read_signed_decimal s
        end in
      match parsed with
      | Some (v, rest) =>
          match skip_ws rest with EmptyString => v | _ => NaN end
      | None => NaN
      end
  end.

(** [parseInt(string, radix)]. *)
Definition parseInt (str : string) (radix : Z) : number :=
  let '(neg, s) := read_sign (skip_ws str) in
  if negb (radix =? 0)%Z && ((radix <? 2)%Z || (36 <? radix)%Z) then NaN
  else
    let strip := (radix =? 0)%Z || (radix =? 16)%Z in
    let '(r, s) :=
      if strip && (starts_with "0x" s || starts_with "0X" s)
      then (16%Z, drop_string 2 s)
      else ((if (radix =? 0)%Z then 10%Z else radix), s) in
    let '(v, n, _) := read_digits r 0 0 s in
    match n with
    | O => NaN
    | S _ => num (if neg then - v else v)
    end.

Definition Z_to_string (z : Z) : string := NilZero.string_of_int (Z.to_int z).

Fixpoint fraction_digits (fuel : nat) (n d : Z) : string :=
  match fuel with
  | O => EmptyString
  | S fuel' =>
      if (n =? 0)%Z then EmptyString
      else String (ascii_of_N (Z.to_N (48 + n * 10 / d)))
                  (fraction_digits fuel' ((n * 10) mod d) d)
  end.

(** Number::toString in radix 10, as used by string concatenation.  An
    integral value prints as a decimal integer, the only case this module
    reaches: each number it prints comes out of [Math.floor], [parseInt] or
    [toFixed].  (Below 10^21 that is what ECMAScript prints; a fractional
    value prints with the digits of its expansion, up to twenty.) *)
Definition toString (a : number) : string :=
  match a with
  | NaN => "NaN"
  | Inf false => "Infinity"
  | Inf true => "-Infinity"
  | Fin q =>
      let i := Qtrunc q in
      let f := Qabs (q - inject_Z i) in
      if Qeq_bool f 0 then Z_to_string i
      else (if Qsign_neg q then "-" else "")
             ++ Z_to_string (Z.abs i) ++ "."
             ++ fraction_digits 20 (Qnum f) (Zpos (Qden f))
  end.

(** [Number.prototype.toFixed()] with no fraction digits: the nearest
    integer, the larger one on a tie, computed on the absolute value. *)
Definition toFixed (a : number) : string :=
  match a with
  | Fin q =>
      let x := Qabs q in
      (if Qsign_neg q then "-" else "")
        ++ (if Qle_bool (inject_Z (10 ^ 21)) x then toString (Fin x)
            else Z_to_string (Qfloor (x + (1 # 2))))
  | _ => toString a
  end.

(** Integral numbers, the ones [toString] prints exactly. *)
Definition integral (a : number) : Prop :=
  match a with
  | Fin q => exists z, q = inject_Z z
  | _ => True
  end.

(** ** Regular expressions

    A backtracking matcher in continuation-passing style for the operators
    the two patterns of the module use: literals, classes, sequence,
    ordered alternation, greedy [?] and [+]/[*], capturing groups and the
    [^] assertion.  Alternatives are tried left to right and a quantifier
    takes as many iterations as it can before giving one back, which is the
    order ECMAScript prescribes.  Neither pattern has a group under a
    quantifier, so the clearing of captures between iterations has nothing
    to clear. *)

Inductive char_class : Type :=
| ClsDigit                       (* \d *)
| ClsWord                        (* \w *)
| ClsSet (members : list ascii). (* [...] *)

Definition is_digit_char (c : ascii) : bool := byte_in c 48 57.

Definition is_word_char (c : ascii) : bool :=
  byte_in c 48 57 || byte_in c 97 122 || byte_in c 65 90 || byte_is c 95.

Definition class_mem (cl : char_class) (c : ascii) : bool :=
  match cl with
  | ClsDigit => is_digit_char c
  | ClsWord => is_word_char c
  | ClsSet l => existsb (Ascii.eqb c) l
  end.

Inductive regex : Type :=
| REmpty
| RBol                                   (* ^ *)
| RChar (c : ascii)
| RClass (cl : char_class)
| RSeq (r1 r2 : regex)
| RAlt (r1 r2 : regex)                   (* r1|r2 *)
| ROpt (r : regex)                       (* r? *)
| RStar (r : regex)                      (* r* *)
| RGroup (n : nat) (r : regex).          (* the n-th capturing group *)

(** [r+] *)
Definition RPlus (r : regex) : regex := RSeq r (RStar r).

Fixpoint RLit (s : string) : regex :=
  match s with
  | EmptyString => REmpty
  | String c EmptyString => RChar c
  | String c s' => RSeq (RChar c) (RLit s')
  end.

(** A position in the subject: the offset and the text that remains there,
    with what the groups have captured so far. *)
Record mstate : Type := MState {
  m_pos : nat;
  m_rest : string;
  m_caps : gmap nat string;
}.

Definition orelse {A} (x : option A) (y : option A) : option A :=
  match x with Some _ => x | None => y end.

Definition advance (st : mstate) (s' : string) : mstate :=
  MState (S (m_pos st)) s' (m_caps st).

(** The text consumed between two positions of the same subject. *)
Definition consumed (st st' : mstate) : string :=
  take_string (m_pos st' - m_pos st) (m_rest st).

Definition continuation : Type := mstate -> option (gmap nat string).

(** The iterations of [r*], greedy: one more iteration of the body first,
    the rest of the pattern otherwise.  An iteration that consumes nothing
    is rejected, so what remains of the subject bounds the number of
    iterations; [fuel] is that bound (see [star_loop_fuel]: a larger one
    changes nothing). *)
Fixpoint star_loop (body : mstate -> continuation -> option (gmap nat string))
    (k : continuation) (fuel : nat) (st0 : mstate)
    : option (gmap nat string) :=
  match fuel with
  | O => k st0
  | S fuel' =>
      orelse
        (body st0
           (fun st1 =>
              if Nat.eqb (m_pos st1) (m_pos st0) then None
              else star_loop body k fuel' st1))
        (k st0)
  end.

Fixpoint rmatch (r : regex) (st : mstate) (k : continuation) {struct r}
    : option (gmap nat string) :=
  match r with
  | REmpty => k st
  | RBol => if Nat.eqb (m_pos st) 0 then k st else None
  | RChar c =>
      match m_rest st with
      | String a s' => if Ascii.eqb a c then k (advance st s') else None
      | EmptyString => None
      end
  | RClass cl =>
      match m_rest st with
      | String a s' => if class_mem cl a then k (advance st s') else None
      | EmptyString => None
      end
  | RSeq r1 r2 => rmatch r1 st (fun st1 => rmatch r2 st1 k)
  | RAlt r1 r2 => orelse (rmatch r1 st k) (rmatch r2 st k)
  | ROpt r1 =>
      orelse
        (rmatch r1 st
           (fun st1 => if Nat.eqb (m_pos st1) (m_pos st) then None else k st1))
        (k st)
  | RStar r1 => star_loop (rmatch r1) k (String.length (m_rest st)) st
  | RGroup n r1 =>
      rmatch r1 st
        (fun st1 =>
           k (MState (m_pos st1) (m_rest st1)
                     (<[n := consumed st st1]> (m_caps st1))))
  end.

(** One attempt at each start position, leftmost first; group 0 is the
    whole match. *)
Fixpoint exec_from (r : regex) (pos : nat) (s : string)
    : option (gmap nat string) :=
  let st := MState pos s ∅ in
  orelse
    (rmatch r st (fun st' => Some (<[O := consumed st st']> (m_caps st'))))
    (match s with
     | EmptyString => None
     | String _ s' => exec_from r (S pos) s'
     end).

(** [RegExp.prototype.exec] and, for a pattern without the [g] flag,
    [String.prototype.match]: the captures of the leftmost match, or [None]
    for [null]. *)
Definition exec (r : regex) (s : string) : option (gmap nat string) :=
  exec_from r 0 s.

(** What a successful run of the matcher establishes: [Matches r st st']
    when [r] can take the subject from position [st] to position [st'],
    recording the captures of [st'] on the way. *)
Inductive Matches : regex -> mstate -> mstate -> Prop :=
| M_empty st : Matches REmpty st st
| M_bol st : m_pos st = O -> Matches RBol st st
| M_char c st s' :
    m_rest st = String c s' -> Matches (RChar c) st (advance st s')
| M_class cl a st s' :
    m_rest st = String a s' -> class_mem cl a = true ->
    Matches (RClass cl) st (advance st s')
| M_seq r1 r2 st st1 st2 :
    Matches r1 st st1 -> Matches r2 st1 st2 -> Matches (RSeq r1 r2) st st2
| M_alt_l r1 r2 st st' : Matches r1 st st' -> Matches (RAlt r1 r2) st st'
| M_alt_r r1 r2 st st' : Matches r2 st st' -> Matches (RAlt r1 r2) st st'
| M_opt_some r st st' :
    Matches r st st' -> m_pos st' <> m_pos st -> Matches (ROpt r) st st'
| M_opt_none r st : Matches (ROpt r) st st
| M_star_nil r st : Matches (RStar r) st st
| M_star_cons r st st1 st2 :
    Matches r st st1 -> m_pos st1 <> m_pos st ->
    Matches (RStar r) st1 st2 -> Matches (RStar r) st st2
| M_group n r st st1 :
    Matches r st st1 ->
    Matches (RGroup n r) st
      (MState (m_pos st1) (m_rest st1) (<[n := consumed st st1]> (m_caps st1))).

(** [matches[i]] as a property key: a group that took no part is
    [undefined]. *)
Definition group (m : gmap nat string) (i : nat) : string :=
  default "undefined" (m !! i).

(** ** moment.js instants

    Modelled from the spec: the [DateTime] of [./moment_wrapper], a
    moment.js instant, is declared outside this file.  The specification
    calls it an absolute timestamp, measured in milliseconds where an
    interval is computed from it and in seconds where a relative range is.
    That is moment's behaviour: an instant is a count of milliseconds since
    the epoch ([valueOf()]), [unix()] is [Math.floor(valueOf() / 1000)], and
    [subtract(n, 's')] moves the instant back by [n * 1000] milliseconds.
    The offsets of a relative range are whole seconds, being differences of
    [unix()] values. *)

Definition DateTime : Type := Z.
Bind Scope Z_scope with DateTime.

Definition valueOf (d : DateTime) : Z := d.
Definition unix (d : DateTime) : Z := (d / 1000)%Z.
Definition subtract_s (d : DateTime) (n : Z) : DateTime := (d - n * 1000)%Z.

(** ** Data model *)

Record TimeOption : Type := mkTimeOption {
  opt_from : string;
  opt_to : string;
  opt_display : string;
  opt_section : option number;
  opt_invalid : option bool;
}.

Record span_info : Type := mkSpan {
  span_display : string;
  span_section : option number;
}.

(** [RawTimeRange]: each side is an instant or a relative expression. *)
Record RawTimeRange : Type := mkRaw {
  raw_from : DateTime + string;
  raw_to : DateTime + string;
}.

Record TimeRange : Type := mkTimeRange {
  tr_from : DateTime;
  tr_to : DateTime;
  tr_raw : RawTimeRange;
}.

Record RelativeTimeRange : Type := mkRelative { rel_from : Z; rel_to : Z }.

Record IntervalValues : Type := mkIntervalValues {
  intervalMs : number;
  interval : string;
}.

Record IntervalDescription : Type := mkIntervalDescription {
  sec : number;
  type : string;
  count : number;
}.

Inductive Error : Type := mkError (message : string).

(** A computation that may throw. *)
Definition result (A : Type) : Type := (Error + A)%type.

(** A string of decimal digits only. *)
Fixpoint all_digits (s : string) : bool :=
  match s with
  | EmptyString => true
  | String c s' => is_digit_char c && all_digits s'
  end.

(** ** roundInterval *)

(** The [switch (true)] of the source: the cases are tried in order and the
    first one whose comparison yields [true] returns. *)
Definition roundInterval (interval : number) : number :=
  if (interval <# num 10)%js then num 1
  else if (interval <# num 15)%js then num 10
  else if (interval <# num 35)%js then num 20
  else if (interval <# num 75)%js then num 50
  else if (interval <# num 150)%js then num 100
  else if (interval <# num 350)%js then num 200
  else if (interval <# num 750)%js then num 500
  else if (interval <# num 1500)%js then num 1000
  else if (interval <# num 3500)%js then num 2000
  else if (interval <# num 7500)%js then num 5000
  else if (interval <# num 12500)%js then num 10000
  else if (interval <# num 17500)%js then num 15000
  else if (interval <# num 25000)%js then num 20000
  else if (interval <# num 45000)%js then num 30000
  else if (interval <# num 90000)%js then num 60000
  else if (interval <# num 210000)%js then num 120000
  else if (interval <# num 450000)%js then num 300000
  else if (interval <# num 750000)%js then num 600000
  else if (interval <# num 1050000)%js then num 900000
  else if (interval <# num 1500000)%js then num 1200000
  else if (interval <# num 2700000)%js then num 1800000
  else if (interval <# num 5400000)%js then num 3600000
  else if (interval <# num 9000000)%js then num 7200000
  else if (interval <# num 16200000)%js then num 10800000
  else if (interval <# num 32400000)%js then num 21600000
  else if (interval <# num 86400000)%js then num 43200000
  else if (interval <# num 604800000)%js then num 86400000
  else if (interval <# num 1814400000)%js then num 604800000
  else if (interval <# num 3628800000)%js then num 2592000000
  else num 31536000000.

(** The rounding ladder as the specification words it: an ascending sequence
    of exclusive upper bounds, each with its canonical value. *)
Definition ladder : list (Z * Z) :=
  [ (10, 1); (15, 10); (35, 20); (75, 50); (150, 100); (350, 200);
    (750, 500); (1500, 1000); (3500, 2000); (7500, 5000); (12500, 10000);
    (17500, 15000); (25000, 20000); (45000, 30000); (90000, 60000);
    (210000, 120000); (450000, 300000); (750000, 600000);
    (1050000, 900000); (1500000, 1200000); (2700000, 1800000);
    (5400000, 3600000); (9000000, 7200000); (16200000, 10800000);
    (32400000, 21600000); (86400000, 43200000); (604800000, 86400000);
    (1814400000, 604800000); (3628800000, 2592000000) ]%Z.

Definition largest_bucket : Z := 31536000000.

(** First match wins; the default is the largest bucket. *)
Fixpoint first_match (l : list (Z * Z)) (d : number) : number :=
  match l with
  | [] => num largest_bucket
  | (threshold, value) :: rest =>
      if (d <# num threshold)%js then num value else first_match rest d
  end.

(** The thresholds ascend strictly from [bound]. *)
Fixpoint ascending (bound : Z) (l : list (Z * Z)) : bool :=
  match l with
  | [] => true
  | (t, _) :: rest => (bound <? t)%Z && ascending t rest
  end.

(** ** Static tables *)

Definition spans : gmap string span_info :=
  list_to_map
    [ ("s", mkSpan "segundo" None);
      ("m", mkSpan "minuto" None);
      ("h", mkSpan "hora" None);
      ("d", mkSpan "dia" None);
      ("w", mkSpan "semana" None);
      ("M", mkSpan "mês" None);
      ("y", mkSpan "ano" None) ].

Definition preset (from to display : string) : TimeOption :=
  mkTimeOption from to display None None.

Definition rangeOptions : list TimeOption :=
  [ preset "now/d" "now/d" "Hoje";
    preset "now/d" "now" "Hoje até agora";
    preset "now/w" "now/w" "Esta semana";
    preset "now/w" "now" "Esta semana até agora";
    preset "now/M" "now/M" "Este mês";
    preset "now/M" "now" "Este mês até agora";
    preset "now/y" "now/y" "Este ano";
    preset "now/y" "now" "Este ano até agora";

    preset "now-1d/d" "now-1d/d" "Ontem";
    preset "now-2d/d" "now-2d/d" "Anteontem";
    preset "now-7d/d" "now-7d/d" "Este dia na semana passada";
    preset "now-1w/w" "now-1w/w" "Semana anterior";
    preset "now-1M/M" "now-1M/M" "Mês anterior";
    preset "now-1Q/fQ" "now-1Q/fQ" "Trimestre fiscal anterior";
    preset "now-1y/y" "now-1y/y" "Ano anterior";
    preset "now-1y/fy" "now-1y/fy" "Ano fiscal anterior";

    preset "now-5m" "now" "Últimos 5 minutos";
    preset "now-15m" "now" "Últimos 15 minutos";
    preset "now-30m" "now" "Últimos 30 minutos";
    preset "now-1h" "now" "Última 1 hora";
    preset "now-3h" "now" "Últimas 3 horas";
    preset "now-6h" "now" "Últimas 6 horas";
    preset "now-12h" "now" "Últimas 12 horas";
    preset "now-24h" "now" "Últimas 24 horas";
    preset "now-2d" "now" "Últimos 2 dias";
    preset "now-7d" "now" "Últimos 7 dias";
    preset "now-30d" "now" "Últimos 30 dias";
    preset "now-90d" "now" "Últimos 90 dias";
    preset "now-6M" "now" "Últimos 6 meses";
    preset "now-1y" "now" "Último 1 ano";
    preset "now-2y" "now" "Últimos 2 anos";
    preset "now-5y" "now" "Últimos 5 anos";
    preset "now/fQ" "now" "Este trimestre fiscal até agora";
    preset "now/fQ" "now/fQ" "Este trimestre fiscal";
    preset "now/fy" "now" "Este ano fiscal até agora";
    preset "now/fy" "now/fy" "Este ano fiscal" ].

Definition hiddenRangeOptions : list TimeOption :=
  [ preset "now" "now+1m" "Próximo minuto";
    preset "now" "now+5m" "Próximos 5 minutos";
    preset "now" "now+15m" "Próximos 15 minutos";
    preset "now" "now+30m" "Próximos 30 minutos";
    preset "now" "now+1h" "Próxima hora";
    preset "now" "now+3h" "Próximas 3 horas";
    preset "now" "now+6h" "Próximas 6 horas";
    preset "now" "now+12h" "Próximas 12 horas";
    preset "now" "now+24h" "Próximas 24 horas";
    preset "now" "now+2d" "Próximos 2 dias";
    preset "now" "now+7d" "Próximos 7 dias";
    preset "now" "now+30d" "Próximos 30 dias";
    preset "now" "now+90d" "Próximos 90 dias";
    preset "now" "now+6M" "Próximos 6 meses";
    preset "now" "now+1y" "Próximo ano";
    preset "now" "now+2y" "Próximos 2 anos";
    preset "now" "now+5y" "Próximos 5 anos" ].

Definition frame_key (frame : TimeOption) : string :=
  opt_from frame ++ " to " ++ opt_to frame.

(** [each(frames, (frame) => { index[frame.from + ' to ' + frame.to] = frame })] *)
Definition index_frames (index : gmap string TimeOption)
    (frames : list TimeOption) : gmap string TimeOption :=
  foldl (fun idx frame => <[frame_key frame := frame]> idx) index frames.

Definition rangeIndex : gmap string TimeOption :=
  index_frames (index_frames ∅ rangeOptions) hiddenRangeOptions.

(** ** describeTextRange and isValidTimeSpan *)

(** [/^now([-+])(\d+)(\w)/] *)
Definition parts_regex : regex :=
  RSeq RBol
    (RSeq (RLit "now")
       (RSeq (RGroup 1 (RClass (ClsSet ["-"%char; "+"%char])))
          (RSeq (RGroup 2 (RPlus (RClass ClsDigit)))
             (RGroup 3 (RClass ClsWord))))).

Definition describeTextRange (expr : string) : TimeOption :=
  let isLast := negb (indexOf expr "+" =? 0)%Z in
  let expr :=
    if (indexOf expr "now" =? -1)%Z
    then (if isLast then "now-" else "now") ++ expr
    else expr in
  match rangeIndex !! (expr ++ " to now") with
  | Some opt => opt
  | None =>
      let opt :=
        if isLast then mkTimeOption expr "now" "" None None
        else mkTimeOption "now" expr "" None None in
      match exec parts_regex expr with
      | Some parts =>
          let unit := group parts 3 in
          let amount := parseInt (group parts 2) 10 in
          match spans !! unit with
          | Some span =>
              let display := if isLast then "Last " else "Next " in
              let display :=
                display ++ (toString amount ++ " " ++ span_display span) in
              let display :=
                if (amount ># num 1)%js then display ++ "s" else display in
              mkTimeOption (opt_from opt) (opt_to opt) display
                (span_section span) (opt_invalid opt)
          | None => opt
          end
      | None =>
          mkTimeOption (opt_from opt) (opt_to opt)
            (opt_from opt ++ " to " ++ opt_to opt)
            (opt_section opt) (Some true)
      end
  end.

(** The expression [describeTextRange] looks up and matches, after its
    first step. *)
Definition normalized (expr : string) : string :=
  if (indexOf expr "now" =? -1)%Z
  then (if negb (indexOf expr "+" =? 0)%Z then "now-" else "now") ++ expr
  else expr.

Definition catalog : list TimeOption := rangeOptions ++ hiddenRangeOptions.

Definition isValidTimeSpan (value : string) : bool :=
  if (indexOf value "$" =? 0)%Z || (indexOf value "+$" =? 0)%Z then true
  else
    let info := describeTextRange value in
    negb (match opt_invalid info with Some true => true | _ => false end).

(** ** isRelativeTime, isFiscal, isRelativeTimeRange *)

Definition isRelativeTime (v : DateTime + string) : bool :=
  match v with
  | inr str => (0 <=? indexOf str "now")%Z
  | inl _ => false
  end.

(** [typeof v === 'string' && v.indexOf('f') > 0] *)
Definition has_fiscal_unit (v : DateTime + string) : bool :=
  match v with
  | inr str => (0 <? indexOf str "f")%Z
  | inl _ => false
  end.

Definition isFiscal (timeRange : TimeRange) : bool :=
  if has_fiscal_unit (raw_from (tr_raw timeRange)) then true
  else if has_fiscal_unit (raw_to (tr_raw timeRange)) then true
  else false.

Definition isRelativeTimeRange (raw : RawTimeRange) : bool :=
  isRelativeTime (raw_from raw) || isRelativeTime (raw_to raw).

(** ** secondsToHms and msRangeToTimeString *)

Definition secondsToHms (seconds : number) : string :=
  let numYears := Math_floor (seconds /# num 31536000)%js in
  if truthy numYears then toString numYears ++ "y" else
  let numDays := Math_floor ((seconds %# num 31536000) /# num 86400)%js in
  if truthy numDays then toString numDays ++ "d" else
  let numHours :=
    Math_floor (((seconds %# num 31536000) %# num 86400) /# num 3600)%js in
  if truthy numHours then toString numHours ++ "h" else
  let numMinutes :=
    Math_floor ((((seconds %# num 31536000) %# num 86400) %# num 3600)
                /# num 60)%js in
  if truthy numMinutes then toString numMinutes ++ "m" else
  let numSeconds :=
    Math_floor ((((seconds %# num 31536000) %# num 86400) %# num 3600)
                %# num 60)%js in
  if truthy numSeconds then toString numSeconds ++ "s" else
  let numMilliseconds := Math_floor (seconds *# num 1000)%js in
  if truthy numMilliseconds then toString numMilliseconds ++ "ms" else
  "less than a millisecond".

(** The formatter as the specification words it: the counts of the units in
    descending order, each taken from what the larger units leave, and the
    label of the first count that is not zero. *)
Definition unit_counts (seconds : number) : list (number * string) :=
  [ (Math_floor (seconds /# num 31536000)%js, "y");
    (Math_floor ((seconds %# num 31536000) /# num 86400)%js, "d");
    (Math_floor (((seconds %# num 31536000) %# num 86400) /# num 3600)%js, "h");
    (Math_floor ((((seconds %# num 31536000) %# num 86400) %# num 3600)
                 /# num 60)%js, "m");
    (Math_floor ((((seconds %# num 31536000) %# num 86400) %# num 3600)
                 %# num 60)%js, "s");
    (Math_floor (seconds *# num 1000)%js, "ms") ].



(** ToBoolean on a string: only the empty string is falsy. *)
Definition nonempty (s : string) : bool :=
  match s with EmptyString => false | String _ _ => true end.

Definition msRangeToTimeString (rangeMs : number) : string :=
  let rangeSec := Number (toFixed (rangeMs /# num 1000)%js) in
  let h := Math_floor (rangeSec /# num 60 /# num 60)%js in
  let m := (Math_floor (rangeSec /# num 60) -# h *# num 60)%js in
  let s := Number (toFixed (rangeSec %# num 60)%js) in
  let formattedH := if truthy h then toString h ++ "h" else "" in
  let formattedM := if truthy m then toString m ++ "min" else "" in
  let formattedS := if truthy s then toString s ++ "sec" else "" in
  let formattedH :=
    if nonempty formattedH && nonempty formattedM
    then formattedH ++ " " else formattedH in
  let formattedM :=
    if (nonempty formattedM || nonempty formattedH) && nonempty formattedS
    then formattedM ++ " " else formattedM in
  let out := formattedH ++ formattedM ++ formattedS in
  if nonempty out then out else "less than 1sec".

(** The composite label as the specification words it: the components that
    are not zero, each with its unit, joined by single spaces, and a literal
    when there is none. *)
Definition unit_label (n : number) (unit : string) : string :=
  if truthy n then toString n ++ unit else "".

Definition space_joined (h m s : number) : string :=
  match List.filter nonempty
          [unit_label h "h"; unit_label m "min"; unit_label s "sec"] with
  | [] => "less than 1sec"
  | parts => String.concat " " parts
  end.

(** Rounding to the nearest integer, halves away from zero. *)
Definition round_half_away (q : Q) : Z :=
  if Qsign_neg q then (- Qfloor (Qabs q + (1 # 2)))%Z
  else Qfloor (Qabs q + (1 # 2)).

(** The value of a run of decimal digits read left to right. *)
Fixpoint uint_value (acc : Z) (d : Decimal.uint) : Z :=
  match d with
  | Decimal.Nil => acc
  | Decimal.D0 d' => uint_value (acc * 10 + 0) d'
  | Decimal.D1 d' => uint_value (acc * 10 + 1) d'
  | Decimal.D2 d' => uint_value (acc * 10 + 2) d'
  | Decimal.D3 d' => uint_value (acc * 10 + 3) d'
  | Decimal.D4 d' => uint_value (acc * 10 + 4) d'
  | Decimal.D5 d' => uint_value (acc * 10 + 5) d'
  | Decimal.D6 d' => uint_value (acc * 10 + 6) d'
  | Decimal.D7 d' => uint_value (acc * 10 + 7) d'
  | Decimal.D8 d' => uint_value (acc * 10 + 8) d'
  | Decimal.D9 d' => uint_value (acc * 10 + 9) d'
  end.

(** ** describeInterval, intervalToSeconds, intervalToMs *)

(** [/(-?\d+(?:\.\d+)?)(ms|[Mwdhmsy])/] *)
Definition interval_regex : regex :=
  RSeq
    (RGroup 1
       (RSeq (ROpt (RChar "-"))
          (RSeq (RPlus (RClass ClsDigit))
             (ROpt (RSeq (RChar ".") (RPlus (RClass ClsDigit)))))))
    (RGroup 2
       (RAlt (RLit "ms")
          (RClass (ClsSet ["M"; "w"; "d"; "h"; "m"; "s"; "y"]%char)))).

(** The unit table; its key order is the one [Object.keys] lists. *)
Definition intervals_in_seconds : list (string * number) :=
  [ ("y", num 31536000);
    ("M", num 2592000);
    ("w", num 604800);
    ("d", num 86400);
    ("h", num 3600);
    ("m", num 60);
    ("s", num 1);
    ("ms", Fin (1 # 1000)) ].

(** Property lookup in an object literal; [None] is [undefined]. *)
Fixpoint get {A} (o : list (string * A)) (key : string) : option A :=
  match o with
  | [] => None
  | (k, v) :: o' => if String.eqb k key then Some v else get o' key
  end.

Definition Object_keys {A} (o : list (string * A)) : list string := map fst o.

Definition invalid_interval_message : string :=
  "Invalid interval string, has to be either unit-less or end with one of the following units: "
    ++ dquote ++ String.concat ", " (Object_keys intervals_in_seconds) ++ dquote.

Definition describeInterval (str : string) : result IntervalDescription :=
  (* Default to seconds if no unit is provided *)
  if truthy (Number str) then
    inr (mkIntervalDescription
           (default NaN (get intervals_in_seconds "s")) "s" (parseInt str 10))
  else
    match exec interval_regex str with
    | None => inl (mkError invalid_interval_message)
    | Some matches =>
        match get intervals_in_seconds (group matches 2) with
        | None =>
            inl (mkError "describeInterval failed: invalid interval string")
        | Some sec =>
            inr (mkIntervalDescription sec (group matches 2)
                   (parseInt (group matches 1) 10))
        end
    end.

Definition intervalToSeconds (str : string) : result number :=
  match describeInterval str with
  | inl e => inl e
  | inr info => inr (sec info *# count info)%js
  end.

Definition intervalToMs (str : string) : result number :=
  match describeInterval str with
  | inl e => inl e
  | inr info => inr (sec info *# num 1000 *# count info)%js
  end.

(** ** calculateInterval *)

Definition calculateInterval (range : TimeRange) (resolution : number)
    (lowLimitInterval : option string) : result IntervalValues :=
  let lowLimitMs :=
    match lowLimitInterval with
    | Some s => if nonempty s then intervalToMs s else inr (num 1)
    | None => inr (num 1) (* 1 millisecond default low limit *)
    end in
  match lowLimitMs with
  | inl e => inl e
  | inr lowLimitMs =>
      let intervalMs :=
        roundInterval
          ((num (valueOf (tr_to range)) -# num (valueOf (tr_from range)))
           /# resolution)%js in
      let intervalMs :=
        if (lowLimitMs ># intervalMs)%js then lowLimitMs else intervalMs in
      inr (mkIntervalValues intervalMs (secondsToHms (intervalMs /# num 1000)%js))
  end.

(** The two steps of [calculateInterval] as the specification words them. *)
Definition raw_interval (range : TimeRange) (resolution : number) : number :=
  ((num (valueOf (tr_to range)) -# num (valueOf (tr_from range)))
   /# resolution)%js.


(** ** timeRangeToRelative and relativeToTimeRange *)

Definition timeRangeToRelative (timeRange : TimeRange) (now : DateTime)
    : RelativeTimeRange :=
  let from := (unix now - unix (tr_from timeRange))%Z in
  let to := (unix now - unix (tr_to timeRange))%Z in
  mkRelative from to.

Definition relativeToTimeRange (relativeTimeRange : RelativeTimeRange)
    (now : DateTime) : TimeRange :=
  let from := subtract_s now (rel_from relativeTimeRange) in
  let to :=
    if (rel_to relativeTimeRange =? 0)%Z then now
    else subtract_s now (rel_to relativeTimeRange) in
  mkTimeRange from to (mkRaw (inl from) (inl to)).

(** The round trip of claim C1. *)
Definition round_trip (tr : TimeRange) (now : DateTime) : TimeRange :=
  relativeToTimeRange (timeRangeToRelative tr now) now.

(** ** describeTimeRange

    The formatting and parsing collaborators live in other modules
    ([./formatter], [./datemath]) and in moment.js; the function is taken
    over them. *)

Section DescribeTimeRange.

Variable TimeZone : Type.

(** [toString()] of a moment.js instant. *)
Variable DateTime_toString : DateTime -> string.

(** [dateTimeFormat(d, { timeZone })] and
    [dateTimeFormatTimeAgo(d, { timeZone })]. *)
Variable dateTimeFormat : DateTime -> option TimeZone -> string.
Variable dateTimeFormatTimeAgo : DateTime -> option TimeZone -> string.

(** [dateMath.parse(text, roundUp, 'utc')]; [None] is [undefined]. *)
Variable dateMath_parse : string -> bool -> option DateTime.

(** [x.toString()] on a side of a raw range. *)
Definition raw_toString (v : DateTime + string) : string :=
  match v with
  | inl d => DateTime_toString d
  | inr str => str
  end.

Definition describeTimeRange (range : RawTimeRange)
    (timeZone : option TimeZone) : string :=
  match rangeIndex !! (raw_toString (raw_from range) ++ " to "
                         ++ raw_toString (raw_to range)) with
  | Some option => opt_display option
  | None =>
      match raw_from range, raw_to range with
      | inl from, inl to =>
          dateTimeFormat from timeZone ++ " to " ++ dateTimeFormat to timeZone
      | inl from, inr to =>
          match dateMath_parse to true with
          | Some parsed =>
              dateTimeFormat from timeZone ++ " to "
                ++ dateTimeFormatTimeAgo parsed timeZone
          | None => ""
          end
      | inr from, inl to =>
          match dateMath_parse from false with
          | Some parsed =>
              dateTimeFormatTimeAgo parsed timeZone ++ " to "
                ++ dateTimeFormat to timeZone
          | None => ""
          end
      | inr from, inr to =>
          if String.eqb to "now" then opt_display (describeTextRange from)
          else from ++ " to " ++ to
      end
  end.

End DescribeTimeRange.

(** ** Auxiliary notions for the properties *)

(** The values [roundInterval] can return. *)
Definition buckets : list Z := map snd ladder ++ [largest_bucket].

(** The results of [calculateInterval] when no low limit is given. *)
Definition bucket_labels : list (Z * string) :=
  [ (1, "1ms"); (10, "10ms"); (20, "20ms"); (50, "50ms"); (100, "100ms");
    (200, "200ms"); (500, "500ms"); (1000, "1s"); (2000, "2s"); (5000, "5s");
    (10000, "10s"); (15000, "15s"); (20000, "20s"); (30000, "30s");
    (60000, "1m"); (120000, "2m"); (300000, "5m"); (600000, "10m");
    (900000, "15m"); (1200000, "20m"); (1800000, "30m"); (3600000, "1h");
    (7200000, "2h"); (10800000, "3h"); (21600000, "6h"); (43200000, "12h");
    (86400000, "1d"); (604800000, "7d"); (2592000000, "30d");
    (31536000000, "1y") ]%Z.


(** The canonical values of a ladder do not descend, starting from [lo] and
    ending with the default. *)
Fixpoint values_sorted (lo : Z) (l : list (Z * Z)) : bool :=
  match l with
  | [] => (lo <=? largest_bucket)%Z
  | (_, v) :: rest => (lo <=? v)%Z && values_sorted v rest
  end.

Definition starts_with_digit (s : string) : bool :=
  match s with
  | String c _ => is_digit_char c
  | EmptyString => false
  end.

(** The label [describeTextRange] builds from an amount and a unit name. *)
Definition span_label (prefix : string) (amount : Z) (name : string) : string :=
  prefix ++ Z_to_string amount ++ " " ++ name
    ++ (if (1 <? amount)%Z then "s" else "").

(** No character of the string is [a]. *)
Fixpoint no_char (a : ascii) (s : string) : bool :=
  match s with
  | EmptyString => true
  | String c s' => negb (Ascii.eqb c a) && no_char a s'
  end.

(** [a <= b] on numbers, as the negation of [b < a]. *)
Definition num_le (a b : number) : Prop := (b <# a)%js = false.

(* ===================================================================== *)
(** * Part II — properties                                                *)
(* ===================================================================== *)

(** ** Numbers *)

Lemma Qltb_lt (p q : Q) : Qltb p q = true <-> (p < q)%Q.
Proof.
  unfold Qltb. rewrite Bool.negb_true_iff, <- Bool.not_true_iff_false,
    Qle_bool_iff. split; [apply Qnot_le_lt | apply Qlt_not_le].
Qed.

Lemma Qltb_ge (p q : Q) : Qltb p q = false <-> (q <= p)%Q.
Proof.
  unfold Qltb. rewrite Bool.negb_false_iff. apply Qle_bool_iff.
Qed.

Lemma num_lt_num (a b : Z) : (num a <# num b)%js = (a <? b)%Z.
Proof.
  unfold num; simpl. destruct (Z.ltb_spec a b) as [H|H].
  - apply Qltb_lt. now rewrite <- Zlt_Qlt.
  - apply Qltb_ge. now rewrite <- Zle_Qle.
Qed.

(** A comparison that succeeds against a bound succeeds against every
    larger one. *)
Lemma num_lt_mono (d : number) (a b : Z) :
  (a <= b)%Z -> (d <# num a)%js = true -> (d <# num b)%js = true.
Proof.
  intros Hab. destruct d as [| [|] | p]; simpl; try easy.
  rewrite !Qltb_lt. intros H. eapply Qlt_le_trans; [exact H|].
  now rewrite <- Zle_Qle.
Qed.

(** ** roundInterval *)

Lemma roundInterval_first_match (d : number) :
  roundInterval d = first_match ladder d.
Proof. reflexivity. Qed.

Lemma ascending_bound (l : list (Z * Z)) (bound : Z) (j : nat) (t v : Z) :
  ascending bound l = true -> l !! j = Some (t, v) -> (bound < t)%Z.
Proof.
  revert bound j. induction l as [| [t0 v0] l IH]; intros bound j Hasc Hj.
  - discriminate.
  - simpl in Hasc. apply andb_prop in Hasc as [H0 Hrest].
    apply Z.ltb_lt in H0. destruct j as [| j]; simpl in Hj.
    + injection Hj as -> ->. exact H0.
    + specialize (IH _ _ Hrest Hj). lia.
Qed.

Lemma ascending_lookup_lt (l : list (Z * Z)) (bound : Z) (i j : nat)
    (t v t' v' : Z) :
  ascending bound l = true -> (j < i)%nat ->
  l !! j = Some (t', v') -> l !! i = Some (t, v) -> (t' < t)%Z.
Proof.
  revert bound i j. induction l as [| [t0 v0] l IH]; intros bound i j Hasc Hji Hj Hi.
  - discriminate.
  - simpl in Hasc. apply andb_prop in Hasc as [_ Hrest].
    destruct i as [| i]; [lia|]. simpl in Hi.
    destruct j as [| j]; simpl in Hj.
    + injection Hj as -> ->. eapply ascending_bound; eauto.
    + apply (IH t0 i j); auto. lia.
Qed.

Section FirstMatch.

Variable d : number.

(** What "first match wins" means on any ladder: the value returned is the
    one of the first entry whose comparison holds. *)
Lemma first_match_at (l : list (Z * Z)) (i : nat) (t v : Z) :
  l !! i = Some (t, v) ->
  (d <# num t)%js = true ->
  (forall j t' v', (j < i)%nat -> l !! j = Some (t', v') ->
                   (d <# num t')%js = false) ->
  first_match l d = num v.
Proof.
  revert i. induction l as [| [t0 v0] l IH]; intros i Hi Hlt Hbefore.
  - discriminate.
  - destruct i as [| i]; simpl in *.
    + injection Hi as -> ->. now rewrite Hlt.
    + rewrite (Hbefore O t0 v0) by (simpl; auto with arith).
      apply (IH i); auto.
      intros j t' v' Hj. apply (Hbefore (S j)). lia.
Qed.

Lemma first_match_default (l : list (Z * Z)) :
  (forall j t v, l !! j = Some (t, v) -> (d <# num t)%js = false) ->
  first_match l d = num largest_bucket.
Proof.
  induction l as [| [t0 v0] l IH]; intros H; simpl; [reflexivity|].
  rewrite (H O t0 v0) by reflexivity.
  apply IH. intros j. apply (H (S j)).
Qed.

(** A bucket is the range between two consecutive thresholds: a value that
    is below the threshold of entry [i] and not below the one before it
    falls through every earlier comparison. *)
Lemma first_match_bucket (l : list (Z * Z)) (bound : Z) (i : nat) (t v : Z) :
  ascending bound l = true ->
  l !! i = Some (t, v) ->
  (d <# num t)%js = true ->
  (forall t' v', l !! pred i = Some (t', v') -> (0 < i)%nat ->
                 (d <# num t')%js = false) ->
  first_match l d = num v.
Proof.
  intros Hasc Hi Hlt Hprev. apply (first_match_at l i t v Hi Hlt).
  intros j t' v' Hji Hj.
  destruct (d <# num t')%js eqn:E; [|reflexivity].
  destruct (l !! pred i) as [[tp vp]|] eqn:Hp.
  - rewrite <- (Hprev tp vp eq_refl) by lia.
    symmetry. apply (num_lt_mono d t' tp); [|exact E].
    destruct (Nat.eq_dec j (pred i)) as [->|Hne].
    + rewrite Hp in Hj. injection Hj as -> _. lia.
    + apply Z.lt_le_incl.
      apply (ascending_lookup_lt l bound (pred i) j tp vp t' v'); auto. lia.
  - apply lookup_ge_None in Hp. apply lookup_lt_Some in Hi. lia.
Qed.

End FirstMatch.

(** C2. [roundInterval] is a total function that returns, for every
    millisecond input, the canonical value of the first comparison
    [d < threshold] that holds along the ascending ladder of thresholds
    (first match wins); so a value lying between two consecutive thresholds
    gets the value of the upper one, an input equal to a threshold (10, 15,
    35) falls into the next bucket up, and an input that is not below the
    last threshold gets the largest bucket, 31536000000 ms (one year). *)
Theorem roundInterval_first_match_wins :
  ascending 0 ladder = true /\
  (forall d, roundInterval d = first_match ladder d) /\
  (forall d i t v,
      ladder !! i = Some (t, v) ->
      (d <# num t)%js = true ->
      (forall j t' v', (j < i)%nat -> ladder !! j = Some (t', v') ->
                       (d <# num t')%js = false) ->
      roundInterval d = num v) /\
  (forall d i t v,
      ladder !! i = Some (t, v) ->
      (d <# num t)%js = true ->
      (forall t' v', ladder !! pred i = Some (t', v') -> (0 < i)%nat ->
                     (d <# num t')%js = false) ->
      roundInterval d = num v) /\
  roundInterval (num 10) = num 10 /\
  roundInterval (num 15) = num 20 /\
  roundInterval (num 35) = num 50 /\
  (forall d, (d <# num 3628800000)%js = false ->
             roundInterval d = num 31536000000).
Proof.
  assert (Hasc : ascending 0 ladder = true) by reflexivity.
  repeat split; try reflexivity.
  - intros d i t v. rewrite roundInterval_first_match. apply first_match_at.
  - intros d i t v. rewrite roundInterval_first_match.
    apply (first_match_bucket d ladder 0 i t v Hasc).
  - intros d Hlast. rewrite roundInterval_first_match.
    apply first_match_default. intros j t v Hj.
    destruct (d <# num t)%js eqn:E; [|reflexivity].
    rewrite <- Hlast. symmetry. apply (num_lt_mono d t); [|exact E].
    assert (Hlen : (j < 29)%nat) by (apply lookup_lt_Some in Hj; exact Hj).
    destruct (Nat.eq_dec j 28) as [->|Hne].
    + injection Hj as <- _. lia.
    + apply Z.lt_le_incl.
      apply (ascending_lookup_lt ladder 0 28 j 3628800000 2592000000 t v);
        auto. lia.
Qed.

(** The bucket from 25 s to 45 s: 36000 ms is below 45000 and not below
    25000, so it rounds to 30000. *)
Lemma roundInterval_first_match_wins_witness :
  roundInterval (num 36000) = num 30000.
Proof.
  apply (proj1 (proj2 (proj2 (proj2 roundInterval_first_match_wins)))
           (num 36000) 13%nat 45000%Z 30000%Z).
  - reflexivity.
  - reflexivity.
  - intros t' v' H _. injection H as <- _. reflexivity.
Defined.

(** ** timeRangeToRelative and relativeToTimeRange *)

Lemma subtract_unix_difference (now d : DateTime) :
  subtract_s now (unix now - unix d) = (d - d mod 1000 + now mod 1000)%Z.
Proof.
  unfold subtract_s, unix.
  pose proof (Z.div_mod now 1000). pose proof (Z.div_mod d 1000). lia.
Qed.

Lemma round_trip_from (tr : TimeRange) (now : DateTime) :
  tr_from (round_trip tr now)
  = (tr_from tr - tr_from tr mod 1000 + now mod 1000)%Z.
Proof. apply subtract_unix_difference. Qed.

Lemma round_trip_to (tr : TimeRange) (now : DateTime) :
  tr_to (round_trip tr now)
  = (tr_to tr - tr_to tr mod 1000 + now mod 1000)%Z.
Proof.
  unfold round_trip, relativeToTimeRange, timeRangeToRelative; simpl.
  destruct (Z.eqb_spec (unix now - unix (tr_to tr)) 0) as [E|E].
  - pose proof (subtract_unix_difference now (tr_to tr)) as H.
    rewrite E in H. unfold subtract_s in H. lia.
  - apply subtract_unix_difference.
Qed.

Lemma unix_same_second (d m : Z) :
  (0 <= m < 1000)%Z -> unix (d - d mod 1000 + m)%Z = unix d.
Proof.
  intros Hm. unfold unix.
  pose proof (Z.div_mod d 1000 ltac:(lia)) as Hd.
  replace (d - d mod 1000 + m)%Z with (m + (d / 1000) * 1000)%Z by lia.
  rewrite Z.div_add by lia. rewrite Z.div_small by lia. lia.
Qed.

(** C1, as the code has it.  The relative range counts whole seconds
    ([unix()]), so the round trip gives back instants in the same second as
    [tr.from] and [tr.to], carrying the millisecond fraction of [now]; it
    gives back [tr.from] and [tr.to] themselves exactly when they have the
    millisecond fraction of [now], as when all three are whole seconds. *)
Theorem round_trip_whole_seconds (tr : TimeRange) (now : DateTime) :
  unix (tr_from (round_trip tr now)) = unix (tr_from tr) /\
  unix (tr_to (round_trip tr now)) = unix (tr_to tr) /\
  (tr_from (round_trip tr now) mod 1000 = now mod 1000)%Z /\
  (tr_to (round_trip tr now) mod 1000 = now mod 1000)%Z /\
  (tr_from (round_trip tr now) = tr_from tr
   <-> (tr_from tr mod 1000 = now mod 1000)%Z) /\
  (tr_to (round_trip tr now) = tr_to tr
   <-> (tr_to tr mod 1000 = now mod 1000)%Z).
Proof.
  rewrite round_trip_from, round_trip_to.
  pose proof (Z.mod_pos_bound now 1000 ltac:(lia)) as Hn.
  assert (Hmod : forall d, ((d - d mod 1000 + now mod 1000) mod 1000
                            = now mod 1000)%Z).
  { intros d. pose proof (Z.div_mod d 1000 ltac:(lia)).
    replace (d - d mod 1000 + now mod 1000)%Z
      with (now mod 1000 + (d / 1000) * 1000)%Z by lia.
    rewrite Z.mod_add by lia. apply Z.mod_mod. lia. }
  repeat split; try (apply unix_same_second; exact Hn);
    try apply Hmod; lia.
Qed.

(** Whole-second instants survive the round trip. *)
Lemma round_trip_whole_seconds_witness :
  tr_from (round_trip (mkTimeRange 60000 120000 (mkRaw (inl 60000%Z) (inl 120000%Z)))
                      180000) = 60000%Z.
Proof.
  apply (proj1 (proj2 (proj2 (proj2 (proj2
    (round_trip_whole_seconds
       (mkTimeRange 60000 120000 (mkRaw (inl 60000%Z) (inl 120000%Z)))
       180000)))))).
  reflexivity.
Defined.

(** C1 as stated does not hold: with [now] half a second past a whole
    second, a range at the epoch comes back shifted by that half second. *)
Lemma round_trip_not_exact :
  ~ (forall (tr : TimeRange) (now : DateTime),
        tr_from (relativeToTimeRange (timeRangeToRelative tr now) now)
        = tr_from tr
        /\ tr_to (relativeToTimeRange (timeRangeToRelative tr now) now)
           = tr_to tr).
Proof.
  intros H.
  specialize (H (mkTimeRange 0 0 (mkRaw (inl 0%Z) (inl 0%Z))) 1500%Z).
  destruct H as [H _]. vm_compute in H. discriminate H.
Qed.

(** ** secondsToHms *)


Lemma Qeq_bool_inject_Z (z : Z) : Qeq_bool (inject_Z z) 0 = (z =? 0)%Z.
Proof.
  destruct (Z.eqb_spec z 0) as [->|H]; [reflexivity|].
  apply Bool.not_true_iff_false. rewrite Qeq_bool_iff.
  unfold Qeq; simpl. lia.
Qed.


Lemma Qtrunc_inject_Z (z : Z) : Qtrunc (inject_Z z) = z.
Proof. unfold Qtrunc. destruct (Qsign_neg _); [apply Qceiling_Z | apply Qfloor_Z]. Qed.

Lemma toString_num (z : Z) : toString (num z) = Z_to_string z.
Proof.
  unfold toString, num. rewrite Qtrunc_inject_Z.
  replace (Qeq_bool _ 0) with true; [reflexivity|].
  symmetry. apply Qeq_bool_iff.
  assert (E : (inject_Z z - inject_Z z == 0)%Q) by ring.
  rewrite E. reflexivity.
Qed.



Lemma inject_Z_nonzero (k : Z) : (0 < k)%Z -> Qeq_bool (inject_Z k) 0 = false.
Proof. intros H. rewrite Qeq_bool_inject_Z. apply Z.eqb_neq. lia. Qed.

Lemma inject_Z_pos (k : Z) : (0 < k)%Z -> (0 < inject_Z k)%Q.
Proof. intros H. change 0%Q with (inject_Z 0). now rewrite <- Zlt_Qlt. Qed.

Lemma floor_div_fin (q q' : Q) (k : Z) :
  (q' == q)%Q -> (0 < k)%Z ->
  Math_floor (Fin q' /# num k)%js = num (Qfloor (q / inject_Z k)).
Proof.
  intros E Hk. unfold num_div, num. rewrite (inject_Z_nonzero k Hk).
  unfold Math_floor. do 2 f_equal.
  apply Qfloor_comp. rewrite Qred_correct, E. reflexivity.
Qed.



Lemma Qsign_neg_false (x : Q) : (0 <= x)%Q -> Qsign_neg x = false.
Proof. intros H. unfold Qsign_neg. now apply Qltb_ge. Qed.


Lemma Qle_bool_false (p q : Q) : Qle_bool p q = false <-> (q < p)%Q.
Proof.
  rewrite <- Bool.not_true_iff_false, Qle_bool_iff.
  split; [apply Qnot_le_lt | apply Qlt_not_le].
Qed.











(** ** msRangeToTimeString *)

#[local] Arguments String.append : simpl nomatch.

Lemma append_assoc (a b c : string) : (a ++ b) ++ c = a ++ (b ++ c).
Proof. induction a as [| x a IH]; simpl; [reflexivity | now rewrite IH]. Qed.

Lemma append_empty_r (a : string) : a ++ "" = a.
Proof. induction a as [| x a IH]; simpl; [reflexivity | now rewrite IH]. Qed.

Lemma nonempty_append_r (a b : string) :
  nonempty b = true -> nonempty (a ++ b) = true.
Proof. destruct a; simpl; auto. Qed.

Lemma nonempty_unit_label (n : number) (unit : string) :
  nonempty unit = true -> nonempty (unit_label n unit) = truthy n.
Proof.
  intros H. unfold unit_label. destruct (truthy n); [|reflexivity].
  now apply nonempty_append_r.
Qed.

Lemma msRangeToTimeString_space_joined (rangeMs : number) :
  msRangeToTimeString rangeMs =
  let rangeSec := Number (toFixed (rangeMs /# num 1000)%js) in
  let h := Math_floor (rangeSec /# num 60 /# num 60)%js in
  let m := (Math_floor (rangeSec /# num 60) -# h *# num 60)%js in
  let s := Number (toFixed (rangeSec %# num 60)%js) in
  space_joined h m s.
Proof.
  unfold msRangeToTimeString, space_joined. cbv zeta.
  set (rangeSec := Number _).
  set (h := Math_floor (rangeSec /# num 60 /# num 60)%js).
  set (m := (Math_floor (rangeSec /# num 60) -# h *# num 60)%js).
  set (s := Number _).
  fold (unit_label h "h") (unit_label m "min") (unit_label s "sec").
  pose proof (nonempty_unit_label h "h" eq_refl) as Hh.
  pose proof (nonempty_unit_label m "min" eq_refl) as Hm.
  pose proof (nonempty_unit_label s "sec" eq_refl) as Hs.
  destruct (unit_label h "h") as [| ch H]; destruct (unit_label m "min") as [| cm M];
    destruct (unit_label s "sec") as [| cs S]; simpl;
    rewrite ?append_assoc, ?append_empty_r; simpl; reflexivity.
Qed.

(** *** Printing an integer and reading it back *)

Lemma read_digits_string_of_uint (d : Decimal.uint) (acc : Z) (n : nat) :
  exists n', read_digits 10 acc n (NilEmpty.string_of_uint d)
             = (uint_value acc d, n', "") /\ (n <= n')%nat
             /\ (d <> Decimal.Nil -> (n < n')%nat).
Proof.
  revert acc n. induction d; intros acc n; simpl.
  1: exists n; split; [reflexivity | split; [lia | congruence]].
  all: edestruct IHd as (n' & E & L & _); exists n';
    (split; [exact E | split; [lia | intros _; lia]]).
Qed.

Lemma uint_value_of_lu (d : Decimal.uint) (acc : Z) :
  uint_value acc d
  = (Z.of_N (DecimalPos.Unsigned.of_lu (Decimal.rev d))
     + acc * 10 ^ Z.of_N (DecimalPos.Unsigned.usize d))%Z.
Proof.
  revert acc. induction d; intros acc; simpl uint_value.
  1: simpl; lia.
  all: rewrite IHd; unfold Decimal.rev at 2; simpl Decimal.revapp;
    rewrite DecimalPos.Unsigned.of_lu_revapp; simpl DecimalPos.Unsigned.usize; simpl DecimalPos.Unsigned.of_lu;
    rewrite N2Z.inj_succ, Z.pow_succ_r by lia;
    rewrite N2Z.inj_add, N2Z.inj_mul, N2Z.inj_pow; simpl Z.of_N; lia.
Qed.

Lemma uint_value_of_uint (d : Decimal.uint) : uint_value 0 d = Z.of_uint d.
Proof.
  rewrite uint_value_of_lu. unfold Z.of_uint.
  rewrite DecimalPos.Unsigned.of_uint_alt. lia.
Qed.

Lemma digit_byte_facts (c : ascii) :
  is_digit_char c = true ->
  is_ascii_space c = false /\ byte_is c 194 = false /\ byte_is c 225 = false
  /\ byte_is c 226 = false /\ byte_is c 227 = false /\ byte_is c 239 = false
  /\ byte_is c 45 = false /\ byte_is c 43 = false
  /\ byte_is c 120 = false /\ byte_is c 88 = false /\ byte_is c 111 = false
  /\ byte_is c 79 = false /\ byte_is c 98 = false /\ byte_is c 66 = false
  /\ Ascii.eqb "I"%char c = false.
Proof.
  destruct c as [[] [] [] [] [] [] [] []]; vm_compute; intros H;
    try discriminate H; repeat split.
Qed.

Lemma skip_ws_digit (c : ascii) (s : string) :
  is_digit_char c = true -> skip_ws (String c s) = String c s.
Proof.
  intros H. destruct (digit_byte_facts c H) as (A & B & C & D & E & F & _).
  simpl. rewrite A. destruct s as [| c1 [| c2 s2]]; try reflexivity.
  - now rewrite B.
  - now rewrite B, C, D, E, F.
Qed.

Lemma string_of_uint_head (d : Decimal.uint) :
  d <> Decimal.Nil ->
  exists c s, NilEmpty.string_of_uint d = String c s /\ is_digit_char c = true.
Proof.
  destruct d; intros H; try congruence; simpl; eexists _, _; split;
    reflexivity.
Qed.

Lemma string_of_uint_all_digits (d : Decimal.uint) :
  all_digits (NilEmpty.string_of_uint d) = true.
Proof. induction d; simpl; auto. Qed.

Lemma Qred_inject_Z (z : Z) : Qred (inject_Z z) = inject_Z z.
Proof.
  unfold Qred, inject_Z.
  pose proof (Z.ggcd_gcd z 1) as G. pose proof (Z.ggcd_correct_divisors z 1) as D.
  destruct (Z.ggcd z 1) as [g [a b]]. simpl in *.
  rewrite Z.gcd_1_r in G. subst g. destruct D as [Da Db].
  f_equal; [lia|]. apply Pos2Z.inj. rewrite Z2Pos.id; lia.
Qed.

Lemma Qred_integer (q : Q) (z : Z) : (q == inject_Z z)%Q -> Qred q = inject_Z z.
Proof. intros E. rewrite <- (Qred_inject_Z z). now apply Qred_complete. Qed.

Lemma read_decimal_digits (d : Decimal.uint) :
  d <> Decimal.Nil ->
  read_decimal (NilEmpty.string_of_uint d)
  = Some ((inject_Z (uint_value 0 d) * pow10 0)%Q, "").
Proof.
  intros H. unfold read_decimal.
  destruct (read_digits_string_of_uint d 0 0) as (n' & -> & _ & L).
  specialize (L H). destruct n' as [| n']; [lia|]. reflexivity.
Qed.

(** A prefix such as [0x] needs a letter in second place. *)
Lemma read_non_decimal_digits (c : ascii) (s : string) :
  all_digits s = true -> read_non_decimal (String c s) = None.
Proof.
  destruct s as [| c1 s1]; [reflexivity|]. simpl. intros A.
  apply andb_prop in A as [A _].
  destruct (digit_byte_facts c1 A)
    as (_ & _ & _ & _ & _ & _ & _ & _ & Hx & HX & Ho & HO & Hb & HB & _).
  unfold read_non_decimal. rewrite Hx, HX, Ho, HO, Hb, HB. simpl.
  now destruct (byte_is c 48).
Qed.

Lemma skip_ws_minus (s : string) : skip_ws (String "-" s) = String "-" s.
Proof. destruct s as [| c1 [| c2 s2]]; reflexivity. Qed.

(** A run of digits, alone or after a minus sign, is read as its value. *)
Lemma Number_digits (d : Decimal.uint) :
  d <> Decimal.Nil ->
  Number (NilEmpty.string_of_uint d) = num (uint_value 0 d)
  /\ Number ("-" ++ NilEmpty.string_of_uint d) = num (- uint_value 0 d).
Proof.
  intros H. pose proof (read_decimal_digits d H) as R.
  pose proof (string_of_uint_all_digits d) as A.
  destruct (string_of_uint_head d H) as (c & s & E & Hc).
  rewrite E in *.
  destruct (digit_byte_facts c Hc)
    as (_ & _ & _ & _ & _ & _ & Hm & Hp & _ & _ & _ & _ & _ & _ & HI).
  assert (I : starts_with "Infinity" (String c s) = false).
  { change (starts_with "Infinity" (String c s))
      with (Ascii.eqb "I"%char c && starts_with "nfinity" s).
    now rewrite HI. }
  assert (A' : all_digits s = true)
    by (simpl in A; now apply andb_prop in A as [_ A]).
  split; unfold Number.
  - rewrite (skip_ws_digit c s Hc), (read_non_decimal_digits c s A').
    unfold read_signed_decimal, read_sign. rewrite Hm, Hp, I, R.
    simpl skip_ws. cbv iota. unfold num. f_equal.
    apply Qred_integer. change (pow10 0) with 1%Q. ring.
  - change ("-" ++ String c s) with (String "-"%char (String c s)).
    rewrite skip_ws_minus, (read_non_decimal_digits "-" (String c s) A).
    unfold read_signed_decimal.
    change (read_sign (String "-" (String c s))) with (true, String c s).
    cbv iota beta. rewrite I, R. simpl skip_ws. cbv iota. unfold num. f_equal.
    apply Qred_integer. change (pow10 0) with 1%Q.
    rewrite inject_Z_opp. ring.
Qed.

Lemma Z_to_string_nonneg (n : Z) :
  (0 <= n)%Z ->
  exists d, d <> Decimal.Nil /\ Z_to_string n = NilEmpty.string_of_uint d
            /\ uint_value 0 d = n.
Proof.
  intros H. destruct n as [| p | p]; [| | lia].
  - exists (Decimal.D0 Decimal.Nil). repeat split. congruence.
  - exists (Pos.to_uint p). pose proof (DecimalPos.Unsigned.to_uint_nonnil p) as Hn.
    split; [exact Hn|]. split.
    + unfold Z_to_string. simpl. unfold NilZero.string_of_uint.
      destruct (Pos.to_uint p); congruence.
    + rewrite uint_value_of_uint. unfold Z.of_uint.
      now rewrite DecimalPos.Unsigned.of_to.
Qed.

Lemma Number_Z_to_string_nonneg (n : Z) :
  (0 <= n)%Z ->
  Number (Z_to_string n) = num n /\ Number ("-" ++ Z_to_string n) = num (- n).
Proof.
  intros H. destruct (Z_to_string_nonneg n H) as (d & Hd & -> & <-).
  now apply Number_digits.
Qed.

Lemma Qabs_floor_half_nonneg (q : Q) : (0 <= Qfloor (Qabs q + (1 # 2)))%Z.
Proof.
  change 0%Z with (Qfloor 0). apply Qfloor_resp_le.
  pose proof (Qabs_nonneg q).
  apply Qle_trans with (Qabs q); [assumption|].
  rewrite <- (Qplus_0_r (Qabs q)) at 1. apply Qplus_le_r. discriminate.
Qed.

(** Below 10^21 in magnitude, [Number(x.toFixed())] is [x] rounded to the
    nearest integer. *)
Lemma Number_toFixed (q : Q) :
  (Qabs q < inject_Z (10 ^ 21))%Q ->
  Number (toFixed (Fin q)) = num (round_half_away q).
Proof.
  intros H. unfold toFixed, round_half_away.
  replace (Qle_bool (inject_Z (10 ^ 21)) (Qabs q)) with false
    by (symmetry; now apply Qle_bool_false).
  pose proof (Qabs_floor_half_nonneg q) as Hn.
  destruct (Number_Z_to_string_nonneg _ Hn) as [A B].
  destruct (Qsign_neg q); [exact B | exact A].
Qed.

Lemma round_half_away_inject_Z (z : Z) : round_half_away (inject_Z z) = z.
Proof.
  assert (F : forall n : Z, Qfloor (inject_Z n + (1 # 2)) = n).
  { intros n. unfold Qfloor, Qplus, inject_Z; simpl.
    replace (n * 2 + 1 * 1)%Z with (1 + n * 2)%Z by lia.
    rewrite Z.div_add by lia. reflexivity. }
  unfold round_half_away, Qsign_neg.
  destruct (Qltb (inject_Z z) 0) eqn:L.
  - apply Qltb_lt in L. rewrite Qabs_neg by (now apply Qlt_le_weak).
    rewrite <- inject_Z_opp, F. lia.
  - apply Qltb_ge in L. rewrite Qabs_pos by exact L. apply F.
Qed.

Lemma Number_toFixed_num (z : Z) :
  (Z.abs z < 10 ^ 21)%Z -> Number (toFixed (num z)) = num z.
Proof.
  intros H. unfold num. rewrite Number_toFixed.
  - now rewrite round_half_away_inject_Z.
  - unfold Qabs, inject_Z, Qlt; simpl. lia.
Qed.

(** *** Arithmetic on integral numbers *)

Lemma num_mul_num (a b : Z) : (num a *# num b)%js = num (a * b).
Proof.
  unfold num_mul, num. f_equal. apply Qred_integer.
  now rewrite inject_Z_mult.
Qed.

Lemma num_sub_num (a b : Z) : (num a -# num b)%js = num (a - b).
Proof.
  unfold num_sub, num_neg, num_add, num. f_equal. apply Qred_integer.
  rewrite Qred_correct. unfold Z.sub.
  now rewrite inject_Z_plus, inject_Z_opp.
Qed.

Lemma floor_div_num (a b : Z) :
  (0 < b)%Z -> Math_floor (num a /# num b)%js = num (a / b).
Proof.
  intros Hb. unfold num at 1.
  rewrite (floor_div_fin (inject_Z a) (inject_Z a) b (Qeq_refl _) Hb).
  now rewrite <- Zdiv_Qdiv.
Qed.

Lemma Qfloor_div_floor (x : Q) (c : Z) :
  (0 < c)%Z -> Qfloor (x / inject_Z c) = (Qfloor x / c)%Z.
Proof.
  intros Hc. pose proof (inject_Z_pos c Hc) as P. apply Z.le_antisymm.
  - apply Z.div_le_lower_bound; [lia|].
    assert (M : (inject_Z (c * Qfloor (x / inject_Z c)) <= x)%Q).
    { rewrite inject_Z_mult.
      apply Qle_trans with (inject_Z c * (x / inject_Z c))%Q.
      - apply Qmult_le_l; [exact P | apply Qfloor_le].
      - rewrite Qmult_div_r; [apply Qle_refl|].
        intros Z0. rewrite Z0 in P. discriminate P. }
    apply Qfloor_resp_le in M. now rewrite Qfloor_Z in M.
  - rewrite Zdiv_Qdiv. apply Qfloor_resp_le.
    apply Qmult_le_compat_r; [apply Qfloor_le|].
    now apply Qlt_le_weak, Qinv_lt_0_compat.
Qed.

Lemma floor_div_div_num (a b c : Z) :
  (0 < b)%Z -> (0 < c)%Z ->
  Math_floor (num a /# num b /# num c)%js = num (a / (b * c)).
Proof.
  intros Hb Hc. unfold num at 1 2. unfold num_div at 2.
  rewrite (inject_Z_nonzero b Hb).
  rewrite (floor_div_fin (inject_Z a / inject_Z b) _ c (Qred_correct _) Hc).
  f_equal. rewrite Qfloor_div_floor by exact Hc.
  rewrite <- Zdiv_Qdiv. apply Z.div_div; lia.
Qed.

Lemma rem_num (n k : Z) :
  (0 <= n)%Z -> (0 < k)%Z -> (num n %# num k)%js = num (n mod k).
Proof.
  intros Hn Hk. unfold num_rem, num. rewrite (inject_Z_nonzero k Hk).
  f_equal. apply Qred_integer.
  assert (T : Qtrunc (inject_Z n / inject_Z k) = (n / k)%Z).
  { unfold Qtrunc. rewrite Qsign_neg_false; [now rewrite <- Zdiv_Qdiv|].
    apply Qle_shift_div_l; [now apply inject_Z_pos|].
    rewrite Qmult_0_l. change 0%Q with (inject_Z 0). now rewrite <- Zle_Qle. }
  rewrite T, <- inject_Z_mult. unfold Qminus.
  rewrite <- inject_Z_opp, <- inject_Z_plus.
  pose proof (Z.div_mod n k ltac:(lia)) as E.
  replace (n + - (k * (n / k)))%Z with (n mod k)%Z by lia. reflexivity.
Qed.

(** For a duration that is not negative and below 10^21 s: the hours,
    minutes and seconds of the duration rounded to whole seconds. *)
Lemma msRangeToTimeString_hms (q : Q) :
  (0 <= q)%Q -> (q / 1000 < inject_Z (10 ^ 21))%Q ->
  msRangeToTimeString (Fin q) =
  let n := round_half_away (q / 1000) in
  space_joined (num (n / 3600)) (num ((n / 60) mod 60)) (num (n mod 60)).
Proof.
  intros H0 Hbig. rewrite msRangeToTimeString_space_joined. cbv zeta.
  assert (Hq : (0 <= q / 1000)%Q).
  { apply Qle_shift_div_l; [reflexivity | now rewrite Qmult_0_l]. }
  assert (Hsec : Number (toFixed (Fin q /# num 1000)%js)
                 = num (round_half_away (q / 1000))).
  { unfold num_div, num. rewrite (inject_Z_nonzero 1000 eq_refl).
    rewrite Number_toFixed.
    - f_equal. unfold round_half_away, Qsign_neg.
      assert (E : (Qred (q / inject_Z 1000) == q / 1000)%Q)
        by apply Qred_correct.
      replace (Qltb (Qred (q / inject_Z 1000)) 0) with (Qltb (q / 1000) 0).
      2:{ unfold Qltb. f_equal. apply Qleb_comp; [reflexivity | now symmetry]. }
      assert (F : Qfloor (Qabs (Qred (q / inject_Z 1000)) + (1 # 2))
                  = Qfloor (Qabs (q / 1000) + (1 # 2))).
      { apply Qfloor_comp. now rewrite E. }
      now rewrite F.
    - rewrite Qred_correct. rewrite Qabs_pos by exact Hq. exact Hbig. }
  rewrite Hsec. set (n := round_half_away (q / 1000)).
  assert (Hn : (0 <= n)%Z).
  { subst n. unfold round_half_away.
    rewrite (Qsign_neg_false _ Hq). apply Qabs_floor_half_nonneg. }
  rewrite (floor_div_div_num n 60 60) by lia.
  rewrite (floor_div_num n 60) by lia.
  rewrite num_mul_num, num_sub_num, (rem_num n 60) by lia.
  rewrite Number_toFixed_num.
  2:{ pose proof (Z.mod_pos_bound n 60 ltac:(lia)). lia. }
  change (60 * 60)%Z with 3600%Z.
  replace (n / 60 - n / 3600 * 60)%Z with ((n / 60) mod 60)%Z; [reflexivity|].
  change 3600%Z with (60 * 60)%Z. rewrite <- Z.div_div by lia.
  pose proof (Z.div_mod (n / 60) 60 ltac:(lia)). lia.
Qed.

Lemma space_joined_none (h m s : number) :
  truthy h = false -> truthy m = false -> truthy s = false ->
  space_joined h m s = "less than 1sec".
Proof.
  intros Hh Hm Hs. unfold space_joined, unit_label.
  now rewrite Hh, Hm, Hs.
Qed.

(** C8. [msRangeToTimeString] rounds the millisecond duration to whole
    seconds and prints the hours, minutes and seconds that are not zero as
    [h], [min] and [sec], joined by single spaces; when all three are zero
    it returns the literal "less than 1sec".  For a duration from 0 to
    [MAX_SAFE_INTEGER] milliseconds the three components are the hours,
    the minutes below 60 and the seconds below 60 of the duration rounded
    to the nearest second, a half going up.  In particular
    [msRangeToTimeString(5400000)] is "1h 30min". *)
Theorem msRangeToTimeString_composite :
  (forall rangeMs,
      msRangeToTimeString rangeMs =
      let rangeSec := Number (toFixed (rangeMs /# num 1000)%js) in
      let h := Math_floor (rangeSec /# num 60 /# num 60)%js in
      let m := (Math_floor (rangeSec /# num 60) -# h *# num 60)%js in
      let s := Number (toFixed (rangeSec %# num 60)%js) in
      space_joined h m s) /\
  (forall q, (0 <= q)%Q -> (q <= inject_Z MAX_SAFE_INTEGER)%Q ->
      msRangeToTimeString (Fin q) =
      let n := round_half_away (q / 1000) in
      space_joined (num (n / 3600)) (num ((n / 60) mod 60)) (num (n mod 60))) /\
  (forall h m s,
      truthy h = false -> truthy m = false -> truthy s = false ->
      space_joined h m s = "less than 1sec") /\
  msRangeToTimeString (num 5400000) = "1h 30min" /\
  msRangeToTimeString (num 0) = "less than 1sec".
Proof.
  split; [exact msRangeToTimeString_space_joined|]. split.
  { intros q H0 Hmax. apply msRangeToTimeString_hms; [exact H0|].
    apply Qle_lt_trans with (inject_Z MAX_SAFE_INTEGER / 1000)%Q.
    - apply Qmult_le_compat_r; [exact Hmax | discriminate].
    - reflexivity. }
  split; [exact space_joined_none|]. split; reflexivity.
Qed.

(** An hour, a minute and five seconds: all three components appear. *)
Lemma msRangeToTimeString_composite_witness :
  msRangeToTimeString (Fin 3665000) = "1h 1min 5sec".
Proof.
  apply (proj1 (proj2 msRangeToTimeString_composite) 3665000%Q);
    reflexivity || discriminate.
Defined.

(** ** The numbers the module prints are integral *)

Lemma integral_num (z : Z) : integral (num z).
Proof. now exists z. Qed.

Lemma Math_floor_integral (a : number) : integral (Math_floor a).
Proof. destruct a as [| s | q]; simpl; eauto. Qed.

Lemma parseInt_integral (str : string) (radix : Z) :
  integral (parseInt str radix).
Proof.
  unfold parseInt. destruct (read_sign (skip_ws str)) as [neg s].
  destruct (negb (radix =? 0)%Z && ((radix <? 2)%Z || (36 <? radix)%Z));
    [exact I|].
  destruct (((radix =? 0)%Z || (radix =? 16)%Z)
            && (starts_with "0x" s || starts_with "0X" s));
    match goal with
    | |- context [read_digits ?r 0 0 ?s'] =>
        destruct (read_digits r 0 0 s') as [[v n] rest]
    end; (destruct n; [exact I | apply integral_num]).
Qed.

Lemma integral_sub (a b : number) :
  integral a -> integral b -> integral (a -# b)%js.
Proof.
  destruct a as [| s | p], b as [| t | q]; simpl; auto.
  - now destruct (Bool.eqb s (negb t)).
  - intros [x ->] [y ->]. exists (x - y)%Z.
    apply Qred_integer. rewrite Qred_correct. unfold Z.sub.
    now rewrite inject_Z_plus, inject_Z_opp.
Qed.

Lemma integral_mul (a b : number) :
  integral a -> integral b -> integral (a *# b)%js.
Proof.
  destruct a as [| s | p], b as [| t | q]; simpl; auto.
  - now destruct (Qeq_bool q 0).
  - now destruct (Qeq_bool p 0).
  - intros [x ->] [y ->]. exists (x * y)%Z.
    apply Qred_integer. now rewrite inject_Z_mult.
Qed.

(** An integral number prints as a decimal integer. *)
Lemma toString_integral (a : number) :
  integral a ->
  toString a = match a with
               | NaN => "NaN"
               | Inf false => "Infinity"
               | Inf true => "-Infinity"
               | Fin q => Z_to_string (Qfloor q)
               end.
Proof.
  destruct a as [| s | q]; try reflexivity.
  intros [z ->]. fold (num z). now rewrite toString_num, Qfloor_Z.
Qed.

Lemma secondsToHms_counts_integral (seconds : number) (n : number) (u : string) :
  In (n, u) (unit_counts seconds) -> integral n.
Proof.
  unfold unit_counts. simpl.
  intros H; repeat destruct H as [H | H]; try contradiction;
    injection H as <- _; apply Math_floor_integral.
Qed.

(** ** calculateInterval *)




(** ** Regular expressions *)

Create HintDb regex.
#[local] Hint Constructors Matches : regex.

Lemma orelse_Some {A} (x y : option A) (v : A) :
  orelse x y = Some v -> x = Some v \/ (x = None /\ y = Some v).
Proof. destruct x; simpl; intros H; [left | right]; auto. Qed.

(** Every answer of the matcher is the answer of its continuation at a
    position the pattern leads to. *)
Lemma rmatch_sound (r : regex) :
  forall st k res,
    rmatch r st k = Some res ->
    exists st', Matches r st st' /\ k st' = Some res.
Proof.
  induction r as [| | c | cl | r1 IH1 r2 IH2 | r1 IH1 r2 IH2 | r IH | r IH
                 | n r IH]; intros st k res H; simpl in H.
  - eauto with regex.
  - destruct (Nat.eqb_spec (m_pos st) 0) as [E|E]; [|discriminate].
    eauto with regex.
  - destruct (m_rest st) as [| a s'] eqn:R; [discriminate|].
    destruct (Ascii.eqb_spec a c) as [->|]; [|discriminate].
    eauto with regex.
  - destruct (m_rest st) as [| a s'] eqn:R; [discriminate|].
    destruct (class_mem cl a) eqn:C; [|discriminate].
    eauto with regex.
  - apply IH1 in H as (st1 & M1 & H). apply IH2 in H as (st2 & M2 & H).
    eauto with regex.
  - apply orelse_Some in H as [H | [_ H]].
    + apply IH1 in H as (st' & M & H). eauto with regex.
    + apply IH2 in H as (st' & M & H). eauto with regex.
  - apply orelse_Some in H as [H | [_ H]]; [|eauto with regex].
    apply IH in H as (st' & M & H).
    destruct (Nat.eqb_spec (m_pos st') (m_pos st)) as [E|E]; [discriminate|].
    eauto with regex.
  - revert H. generalize (String.length (m_rest st)) as fuel.
    intros fuel. revert st. induction fuel as [| fuel IHf]; intros st H;
      simpl in H; [eauto with regex|].
    apply orelse_Some in H as [H | [_ H]]; [|eauto with regex].
    apply IH in H as (st1 & M1 & H).
    destruct (Nat.eqb_spec (m_pos st1) (m_pos st)) as [E|E]; [discriminate|].
    apply IHf in H as (st2 & M2 & H). eauto with regex.
  - apply IH in H as (st1 & M & H). eauto with regex.
Qed.

Lemma rmatch_no_answer (r : regex) (st : mstate) :
  rmatch r st (fun _ => None) = None.
Proof.
  destruct (rmatch r st (fun _ => None)) as [res|] eqn:H; [|reflexivity].
  apply rmatch_sound in H as (st' & _ & H). discriminate H.
Qed.

(** A match moves forward, by as many characters as it takes off what
    remains. *)
Lemma Matches_position (r : regex) (st st' : mstate) :
  Matches r st st' ->
  (m_pos st <= m_pos st')%nat
  /\ (m_pos st' + String.length (m_rest st')
      = m_pos st + String.length (m_rest st))%nat.
Proof.
  induction 1; simpl; try lia;
    match goal with
    | R : m_rest _ = String _ _ |- _ => rewrite R; simpl; lia
    end.
Qed.

(** The matcher consults its continuation only at positions the pattern
    leads to. *)
Lemma rmatch_ext (r : regex) :
  forall st (k k' : continuation),
    (forall st', Matches r st st' -> k st' = k' st') ->
    rmatch r st k = rmatch r st k'.
Proof.
  induction r as [| | c | cl | r1 IH1 r2 IH2 | r1 IH1 r2 IH2 | r IH | r IH
                 | n r IH]; intros st k k' H; simpl.
  - apply H. constructor.
  - destruct (Nat.eqb_spec (m_pos st) 0); [apply H; now constructor | reflexivity].
  - destruct (m_rest st) as [| a s'] eqn:R; [reflexivity|].
    destruct (Ascii.eqb_spec a c) as [->|]; [|reflexivity].
    apply H. now constructor.
  - destruct (m_rest st) as [| a s'] eqn:R; [reflexivity|].
    destruct (class_mem cl a) eqn:C; [|reflexivity].
    apply H. now apply (M_class cl a).
  - apply IH1. intros st1 M1. apply IH2. intros st2 M2.
    apply H. now apply (M_seq r1 r2 st st1 st2).
  - f_equal.
    + apply IH1. intros st' M. apply H. now apply M_alt_l.
    + apply IH2. intros st' M. apply H. now apply M_alt_r.
  - f_equal.
    + apply IH. intros st' M.
      destruct (Nat.eqb_spec (m_pos st') (m_pos st)); [reflexivity|].
      apply H. now apply M_opt_some.
    + apply H. apply M_opt_none.
  - generalize (String.length (m_rest st)) as fuel. intros fuel.
    revert st H. induction fuel as [| fuel IHf]; intros st H; simpl.
    + apply H. apply M_star_nil.
    + f_equal.
      * apply IH. intros st1 M1.
        destruct (Nat.eqb_spec (m_pos st1) (m_pos st)); [reflexivity|].
        apply IHf. intros st2 M2. apply H.
        now apply (M_star_cons r st st1 st2).
      * apply H. apply M_star_nil.
  - apply IH. intros st1 M. apply H. now apply M_group.
Qed.

(** The bound on the iterations of [r*] never cuts a match short: one more
    unit of fuel than what remains of the subject changes nothing. *)
Lemma star_loop_fuel (r : regex) (k : continuation) :
  forall fuel st,
    (String.length (m_rest st) <= fuel)%nat ->
    star_loop (rmatch r) k (S fuel) st = star_loop (rmatch r) k fuel st.
Proof.
  induction fuel as [| fuel IHf]; intros st Hlen.
  - simpl. rewrite (rmatch_ext r st _ (fun _ => None)).
    + now rewrite rmatch_no_answer.
    + intros st' M. apply Matches_position in M as [M1 M2].
      replace (m_pos st') with (m_pos st) by lia.
      now rewrite Nat.eqb_refl.
  - change (star_loop (rmatch r) k (S (S fuel)) st)
      with (orelse
              (rmatch r st
                 (fun st1 =>
                    if Nat.eqb (m_pos st1) (m_pos st) then None
                    else star_loop (rmatch r) k (S fuel) st1))
              (k st)).
    change (star_loop (rmatch r) k (S fuel) st)
      with (orelse
              (rmatch r st
                 (fun st1 =>
                    if Nat.eqb (m_pos st1) (m_pos st) then None
                    else star_loop (rmatch r) k fuel st1))
              (k st)).
    f_equal. apply rmatch_ext. intros st1 M.
    destruct (Nat.eqb_spec (m_pos st1) (m_pos st)) as [E|E]; [reflexivity|].
    apply IHf. apply Matches_position in M as [M1 M2]. lia.
Qed.

Lemma star_loop_enough (r : regex) (k : continuation) (st : mstate)
    (extra : nat) :
  star_loop (rmatch r) k (String.length (m_rest st) + extra) st
  = rmatch (RStar r) st k.
Proof.
  simpl. induction extra as [| extra IH].
  - now rewrite Nat.add_0_r.
  - rewrite Nat.add_succ_r, star_loop_fuel by lia. exact IH.
Qed.

(** A successful [exec] comes from a match of the pattern at some start
    position, with group 0 added to its captures. *)
Lemma exec_from_sound (r : regex) (s : string) :
  forall pos m,
    exec_from r pos s = Some m ->
    exists st st',
      m_caps st = ∅ /\ Matches r st st'
      /\ m = <[O := consumed st st']> (m_caps st').
Proof.
  induction s as [| a s IH]; intros pos m H; simpl in H;
    apply orelse_Some in H as [H | [_ H]]; try discriminate.
  - apply rmatch_sound in H as (st' & M & H). injection H as <-.
    now exists (MState pos "" ∅), st'.
  - apply rmatch_sound in H as (st' & M & H). injection H as <-.
    now exists (MState pos (String a s) ∅), st'.
  - now apply IH in H.
Qed.

(** ** describeInterval *)

Lemma consumed_one (st : mstate) (a : ascii) (s' : string) :
  m_rest st = String a s' -> consumed st (advance st s') = String a "".
Proof.
  intros R. unfold consumed, advance; simpl. rewrite R.
  replace (S (m_pos st) - m_pos st)%nat with 1%nat by lia. reflexivity.
Qed.

Lemma consumed_two (st : mstate) (a b : ascii) (s' s'' : string) :
  m_rest st = String a s' -> s' = String b s'' ->
  consumed st (advance (advance st s') s'') = String a (String b "").
Proof.
  intros R ->. unfold consumed, advance; simpl. rewrite R.
  replace (S (S (m_pos st)) - m_pos st)%nat with 2%nat by lia. reflexivity.
Qed.

(** What the second group of [interval_regex] can capture. *)
Lemma interval_regex_unit (str : string) (matches : gmap nat string) :
  exec interval_regex str = Some matches ->
  In (group matches 2) (Object_keys intervals_in_seconds).
Proof.
  intros H. apply exec_from_sound in H as (st & st' & _ & M & ->).
  unfold interval_regex in M.
  inversion M as [| | | | r1 r2 s0 st1 s2 M1 M2 | | | | | | |]; subst; clear M M1.
  inversion M2 as [| | | | | | | | | | | n r s0 st2 MA]; subst; clear M2.
  unfold group. rewrite lookup_insert_ne by discriminate.
  simpl m_caps. rewrite lookup_insert_eq. simpl default.
  inversion MA as [| | | | | r1 r2 s0 s2 ML | r1 r2 s0 s2 MR | | | | |];
    subst; clear MA.
  - simpl in ML.
    inversion ML as [| | | | r1 r2 s0 sm s2 Mm Ms | | | | | | |]; subst; clear ML.
    inversion Mm as [| | c s0 s' R | | | | | | | | |]; subst; clear Mm.
    inversion Ms as [| | c s0 s'' R' | | | | | | | | |]; subst; clear Ms.
    simpl in R'. rewrite (consumed_two st1 _ _ s' s'' R R').
    vm_compute. tauto.
  - inversion MR as [| | | cl a s0 s' R C | | | | | | | |]; subst; clear MR.
    rewrite (consumed_one st1 a s' R).
    simpl in C. repeat rewrite Bool.orb_true_iff in C.
    repeat match goal with
           | H : _ \/ _ |- _ => destruct H as [H | H]
           | H : Ascii.eqb _ _ = true |- _ => apply Ascii.eqb_eq in H; subst a
           end; try discriminate; vm_compute; tauto.
Qed.

Lemma get_Object_keys {A} (o : list (string * A)) (key : string) :
  In key (Object_keys o) -> exists v, get o key = Some v.
Proof.
  induction o as [| [k v] o IH]; simpl; [tauto|].
  intros [-> | H].
  - rewrite String.eqb_refl. eauto.
  - destruct (String.eqb k key); eauto.
Qed.

(** C7. The second error of [describeInterval] cannot be raised: whenever
    [interval_regex] matches, what its second group captured is one of the
    keys of [intervals_in_seconds], so the lookup is never [undefined]. *)
Theorem describeInterval_unit_in_table :
  (forall str matches,
      exec interval_regex str = Some matches ->
      In (group matches 2) (Object_keys intervals_in_seconds)
      /\ exists sec, get intervals_in_seconds (group matches 2) = Some sec) /\
  (forall str,
      describeInterval str
      <> inl (mkError "describeInterval failed: invalid interval string")).
Proof.
  split.
  - intros str matches H. apply interval_regex_unit in H.
    split; [exact H | now apply get_Object_keys].
  - intros str. unfold describeInterval.
    destruct (truthy (Number str)); [discriminate|].
    destruct (exec interval_regex str) as [matches|] eqn:E.
    + apply interval_regex_unit, get_Object_keys in E as [sec ->].
      discriminate.
    + intros H. vm_compute in H. discriminate H.
Qed.

(** In "1.5h" the pattern finds "5h", whose unit is a key of the table. *)
Lemma describeInterval_unit_in_table_witness :
  exec interval_regex "1.5h"
  = Some (<[0%nat := "1.5h"]> (<[2%nat := "h"]> (<[1%nat := "1.5"]> ∅)))
  /\ In "h" (Object_keys intervals_in_seconds).
Proof.
  assert (E : exec interval_regex "1.5h"
              = Some (<[0%nat := "1.5h"]> (<[2%nat := "h"]> (<[1%nat := "1.5"]> ∅))))
    by (vm_compute; reflexivity).
  split; [exact E|].
  exact (proj1 (proj1 describeInterval_unit_in_table "1.5h" _ E)).
Defined.

(** C3, where the code departs from it.  The strings "5m", "90" and "bogus"
    behave as the claim says, but the purely numeric string "0" is rejected:
    [Number("0")] is [0], which is falsy, so the numeric branch is skipped,
    and the pattern finds no unit. *)
Theorem describeInterval_rejects_zero :
  Number "0" = num 0 /\
  exec interval_regex "0" = None /\
  describeInterval "0" = inl (mkError invalid_interval_message) /\
  describeInterval "5m" = inr (mkIntervalDescription (num 60) "m" (num 5)) /\
  describeInterval "90" = inr (mkIntervalDescription (num 1) "s" (num 90)) /\
  describeInterval "bogus" = inl (mkError invalid_interval_message) /\
  invalid_interval_message =
    "Invalid interval string, has to be either unit-less or end with one of the following units: "
      ++ dquote ++ "y, M, w, d, h, m, s, ms" ++ dquote.
Proof. repeat split; vm_compute; reflexivity. Qed.



Lemma parseInt_Z_to_string (n : Z) :
  (0 <= n)%Z -> parseInt (Z_to_string n) 10 = num n.
Proof.
  intros H. destruct (Z_to_string_nonneg n H) as (d & Hd & -> & <-).
  destruct (string_of_uint_head d Hd) as (c & s & E & Hc).
  destruct (digit_byte_facts c Hc)
    as (_ & _ & _ & _ & _ & _ & Hm & Hp & _).
  unfold parseInt. rewrite E, (skip_ws_digit c s Hc).
  unfold read_sign. rewrite Hm, Hp.
  change (negb (10 =? 0)%Z && ((10 <? 2)%Z || (36 <? 10)%Z)) with false.
  change ((10 =? 0)%Z || (10 =? 16)%Z) with false.
  cbv beta iota zeta. simpl andb. cbv beta iota zeta. rewrite <- E.
  change (if (10 =? 0)%Z then 10%Z else 10%Z) with 10%Z.
  destruct (read_digits_string_of_uint d 0 0) as (n' & -> & _ & L).
  specialize (L Hd). destruct n' as [| n']; [lia | reflexivity].
Qed.


(** ** The preset catalog *)

Lemma index_frames_lookup (frames : list TimeOption) :
  forall (index : gmap string TimeOption) (key : string) (opt : TimeOption),
    index_frames index frames !! key = Some opt ->
    index !! key = Some opt \/ (In opt frames /\ frame_key opt = key).
Proof.
  induction frames as [| frame frames IH]; intros index key opt H.
  - now left.
  - apply IH in H as [H | [H K]].
    + rewrite lookup_insert in H. destruct (decide (frame_key frame = key)) as [E|E].
      * injection H as <-. right. split; [now left | exact E].
      * now left.
    + right. split; [now right | exact K].
Qed.

(** Whatever the index returns is a preset filed under its own key. *)
Lemma rangeIndex_lookup (key : string) (opt : TimeOption) :
  rangeIndex !! key = Some opt -> In opt catalog /\ frame_key opt = key.
Proof.
  intros H. unfold rangeIndex in H.
  apply index_frames_lookup in H as [H | [H K]].
  - apply index_frames_lookup in H as [H | [H K]].
    + rewrite lookup_empty in H. discriminate.
    + split; [apply in_or_app; now left | exact K].
  - split; [apply in_or_app; now right | exact K].
Qed.

Ltac each_preset H :=
  unfold catalog, rangeOptions, hiddenRangeOptions in H; simpl in H;
  repeat (destruct H as [H | H]; [subst | ]); [.. | contradiction].

Lemma describeTextRange_unfold (expr : string) :
  describeTextRange expr =
  let isLast := negb (indexOf expr "+" =? 0)%Z in
  match rangeIndex !! (normalized expr ++ " to now") with
  | Some opt => opt
  | None =>
      let opt :=
        if isLast then mkTimeOption (normalized expr) "now" "" None None
        else mkTimeOption "now" (normalized expr) "" None None in
      match exec parts_regex (normalized expr) with
      | Some parts =>
          match spans !! group parts 3 with
          | Some span =>
              let amount := parseInt (group parts 2) 10 in
              let display :=
                (if isLast then "Last " else "Next ")
                  ++ (toString amount ++ " " ++ span_display span) in
              mkTimeOption (opt_from opt) (opt_to opt)
                (if (amount ># num 1)%js then display ++ "s" else display)
                (span_section span) (opt_invalid opt)
          | None => opt
          end
      | None =>
          mkTimeOption (opt_from opt) (opt_to opt)
            (opt_from opt ++ " to " ++ opt_to opt) (opt_section opt) (Some true)
      end
  end.
Proof. reflexivity. Qed.

Lemma normalized_plus (rest : string) :
  normalized (String "+" rest) = String "+" rest
  \/ normalized (String "+" rest) = "now" ++ String "+" rest.
Proof.
  unfold normalized.
  destruct (indexOf (String "+" rest) "now" =? -1)%Z; [right | left];
    reflexivity.
Qed.

Lemma plus_not_in_index (rest : string) :
  rangeIndex !! (normalized (String "+" rest) ++ " to now") = None.
Proof.
  destruct (rangeIndex !! _) as [opt|] eqn:H; [exfalso | reflexivity].
  apply rangeIndex_lookup in H as [H K].
  destruct (normalized_plus rest) as [E|E]; rewrite E in K; clear E;
    each_preset H; discriminate K.
Qed.

Lemma plus_is_not_last (rest : string) :
  negb (indexOf (String "+" rest) "+" =? 0)%Z = false.
Proof. reflexivity. Qed.

(** The shape of what [describeTextRange] builds for a future expression:
    from [now] to the expression, with a label that is empty, starts with
    [Next] or is the literal range. *)
Lemma describeTextRange_plus (rest : string) :
  let r := describeTextRange (String "+" rest) in
  opt_from r = "now" /\ opt_to r = normalized (String "+" rest)
  /\ (opt_display r = ""
      \/ (exists tail, opt_display r = "Next " ++ tail)
      \/ opt_display r = "now to " ++ normalized (String "+" rest)).
Proof.
  cbv zeta. rewrite describeTextRange_unfold. cbv zeta.
  rewrite plus_not_in_index, plus_is_not_last.
  destruct (exec parts_regex _) as [parts|].
  - destruct (spans !! _) as [span|].
    + destruct (_ ># _)%js; simpl; repeat split; right; left; eexists;
        reflexivity.
    + simpl. auto.
  - simpl. auto.
Qed.

Lemma describeTextRange_plus_not_preset (rest : string) :
  ~ In (describeTextRange (String "+" rest)) catalog.
Proof.
  intros H. destruct (describeTextRange_plus rest) as (F & T & D).
  cbv zeta in *. destruct (describeTextRange (String "+" rest)) as [f t d s i].
  simpl in F, T, D. subst f.
  each_preset H; try discriminate;
    match goal with
    | E : preset _ _ _ = mkTimeOption _ _ _ _ _ |- _ =>
        injection E as _ E _ _; subst d
    end; destruct D as [D | [[tail D] | D]]; discriminate D.
Qed.

(** C9. An expression that begins with [+] never comes back as a catalog
    preset: the key looked up is the normalised expression followed by
    [" to now"], whereas every future preset is filed under a key that
    begins with ["now to now+"]; so the result is built from the pattern,
    from [now] to the expression.  For ["+5m"] it is
    [{from: 'now', to: 'now+5m'}] with the label "Next 5 minutos", not the
    preset "Próximos 5 minutos". *)
Theorem describeTextRange_plus_never_preset :
  forallb (fun frame => String.eqb (opt_from frame) "now"
                        && starts_with "now to now+" (frame_key frame))
          hiddenRangeOptions = true /\
  (forall rest,
      rangeIndex !! (normalized (String "+" rest) ++ " to now") = None) /\
  (forall rest, ~ In (describeTextRange (String "+" rest)) catalog) /\
  (forall rest,
      opt_from (describeTextRange (String "+" rest)) = "now"
      /\ opt_to (describeTextRange (String "+" rest))
         = normalized (String "+" rest)) /\
  describeTextRange "+5m"
  = mkTimeOption "now" "now+5m" "Next 5 minutos" None None /\
  rangeIndex !! "now to now+5m"
  = Some (preset "now" "now+5m" "Próximos 5 minutos").
Proof.
  split; [reflexivity|]. split; [exact plus_not_in_index|].
  split; [exact describeTextRange_plus_not_preset|]. split.
  - intros rest. destruct (describeTextRange_plus rest) as (F & T & _).
    now split.
  - split; vm_compute; reflexivity.
Qed.

(** ** Expressions with a unit the spans table does not know *)

Lemma length_append (a b : string) :
  String.length (a ++ b) = (String.length a + String.length b)%nat.
Proof. induction a as [| c a IH]; simpl; [reflexivity | now rewrite IH]. Qed.

Lemma take_drop_append (a b : string) :
  take_string (String.length a) (a ++ b) = a
  /\ drop_string (String.length a) (a ++ b) = b.
Proof.
  induction a as [| c a [IHt IHd]]; simpl.
  - split; [now destruct b | reflexivity].
  - now rewrite IHt, IHd.
Qed.

(** Splitting a known string into an unknown prefix and a known suffix. *)
Lemma append_inv (e suffix key : string) :
  e ++ suffix = key ->
  e = take_string (String.length key - String.length suffix) key
  /\ drop_string (String.length key - String.length suffix) key = suffix.
Proof.
  intros <-. rewrite length_append.
  replace (String.length e + String.length suffix - String.length suffix)%nat
    with (String.length e) by lia.
  destruct (take_drop_append e suffix) as [T D]. now rewrite T, D.
Qed.

Lemma unknown_unit_not_in_index (e : string) (parts : gmap nat string) :
  exec parts_regex e = Some parts ->
  spans !! group parts 3 = None ->
  rangeIndex !! (e ++ " to now") = None.
Proof.
  intros Hexec Hspan.
  destruct (rangeIndex !! _) as [opt|] eqn:H; [exfalso | reflexivity].
  apply rangeIndex_lookup in H as [H K].
  each_preset H; symmetry in K; apply append_inv in K as [Ke Ks];
    vm_compute in Ks; try discriminate Ks;
    vm_compute in Ke; subst e;
    vm_compute in Hexec; try discriminate Hexec;
    injection Hexec as <-; vm_compute in Hspan; discriminate Hspan.
Qed.

(** C10. When the normalised expression matches the pattern but the
    character captured as its unit is not a key of [spans], the result of
    [describeTextRange] has an empty label and no [invalid] flag, so
    [isValidTimeSpan] accepts the string; ["now-5q"] is such a string. *)
Theorem unknown_unit_valid_without_label :
  (forall value parts,
      exec parts_regex (normalized value) = Some parts ->
      spans !! group parts 3 = None ->
      opt_display (describeTextRange value) = ""
      /\ opt_invalid (describeTextRange value) = None
      /\ isValidTimeSpan value = true) /\
  exec parts_regex "now-5q"
  = Some (<[0%nat := "now-5q"]>
            (<[3%nat := "q"]> (<[2%nat := "5"]> (<[1%nat := "-"]> ∅)))) /\
  spans !! "q" = None /\
  describeTextRange "now-5q" = mkTimeOption "now-5q" "now" "" None None /\
  isValidTimeSpan "now-5q" = true.
Proof.
  split; [| repeat split; vm_compute; reflexivity].
  intros value parts Hexec Hspan.
  assert (H : opt_display (describeTextRange value) = ""
              /\ opt_invalid (describeTextRange value) = None).
  { rewrite describeTextRange_unfold. cbv zeta.
    rewrite (unknown_unit_not_in_index _ parts Hexec Hspan), Hexec, Hspan.
    destruct (negb _); split; reflexivity. }
  destruct H as [D I]. repeat split; [exact D | exact I |].
  unfold isValidTimeSpan. rewrite I. now destruct (_ || _).
Qed.

(** The shorthand "5q" normalises to "now-5q" and is accepted as well. *)
Lemma unknown_unit_valid_without_label_witness :
  opt_display (describeTextRange "5q") = ""
  /\ opt_invalid (describeTextRange "5q") = None
  /\ isValidTimeSpan "5q" = true.
Proof.
  apply (proj1 unknown_unit_valid_without_label "5q"
           (<[0%nat := "now-5q"]>
              (<[3%nat := "q"]> (<[2%nat := "5"]> (<[1%nat := "-"]> ∅)))));
    vm_compute; reflexivity.
Defined.

(** ** The two examples of claim C4 *)

(** Step (d): with no preset and no match of the pattern, the result is
    marked invalid and labelled with the literal range. *)
Lemma describeTextRange_fallback (value : string) :
  rangeIndex !! (normalized value ++ " to now") = None ->
  exec parts_regex (normalized value) = None ->
  opt_invalid (describeTextRange value) = Some true
  /\ opt_display (describeTextRange value)
     = opt_from (describeTextRange value) ++ " to "
         ++ opt_to (describeTextRange value).
Proof.
  intros Hindex Hexec. rewrite describeTextRange_unfold. cbv zeta.
  rewrite Hindex, Hexec. destruct (negb _); split; reflexivity.
Qed.

(** C4, as the code has it.  ["6h"] is found in the catalog under
    ["now-6h to now"] and comes back as the preset "Últimas 6 horas".
    ["now-3d/d"] has no preset, but the pattern, which is not anchored at
    the end, matches its prefix ["now-3d"]: the result is built from the
    pattern, with the label "Last 3 dias" and no [invalid] flag.  The
    fallback that is marked invalid and labelled with the literal range is
    taken when neither the catalog nor the pattern matches, as for
    ["now/d+6h"]. *)
Theorem describeTextRange_examples :
  rangeIndex !! "now-6h to now"
  = Some (preset "now-6h" "now" "Últimas 6 horas") /\
  describeTextRange "6h" = preset "now-6h" "now" "Últimas 6 horas" /\
  rangeIndex !! "now-3d/d to now" = None /\
  exec parts_regex "now-3d/d"
  = Some (<[0%nat := "now-3d"]>
            (<[3%nat := "d"]> (<[2%nat := "3"]> (<[1%nat := "-"]> ∅)))) /\
  describeTextRange "now-3d/d"
  = mkTimeOption "now-3d/d" "now" "Last 3 dias" None None /\
  (forall value,
      rangeIndex !! (normalized value ++ " to now") = None ->
      exec parts_regex (normalized value) = None ->
      let r := describeTextRange value in
      opt_invalid r = Some true
      /\ opt_display r = opt_from r ++ " to " ++ opt_to r) /\
  describeTextRange "now/d+6h"
  = mkTimeOption "now/d+6h" "now" "now/d+6h to now" None (Some true).
Proof.
  split; [vm_compute; reflexivity|]. split; [vm_compute; reflexivity|].
  split; [vm_compute; reflexivity|]. split; [vm_compute; reflexivity|].
  split; [vm_compute; reflexivity|]. split; [|vm_compute; reflexivity].
  intros value Hindex Hexec. now apply describeTextRange_fallback.
Qed.

Lemma describeTextRange_examples_witness :
  opt_invalid (describeTextRange "now/d+6h") = Some true
  /\ opt_display (describeTextRange "now/d+6h") = "now/d+6h to now".
Proof.
  apply (proj1 (proj2 (proj2 (proj2 (proj2 (proj2
           describeTextRange_examples))))) "now/d+6h");
    vm_compute; reflexivity.
Defined.

(** C4 as stated does not hold: ["now-3d/d"] is neither marked invalid nor
    labelled with the literal range. *)
Lemma describeTextRange_3d_not_invalid :
  ~ (opt_display (describeTextRange "6h") = "Últimas 6 horas"
     /\ opt_invalid (describeTextRange "now-3d/d") = Some true
     /\ opt_display (describeTextRange "now-3d/d") = "now-3d/d to now").
Proof.
  intros (_ & H & _). vm_compute in H. discriminate H.
Qed.

(** ** Matching a run of digits *)

Lemma rmatch_digit_fail (tail : string) (p : nat) (caps : gmap nat string)
    (k : continuation) :
  starts_with_digit tail = false ->
  rmatch (RClass ClsDigit) (MState p tail caps) k = None.
Proof. destruct tail as [| c t]; simpl; [reflexivity | now intros ->]. Qed.

Lemma rmatch_digit_ok (c : ascii) (s : string) (p : nat)
    (caps : gmap nat string) (k : continuation) :
  is_digit_char c = true ->
  rmatch (RClass ClsDigit) (MState p (String c s) caps) k
  = k (MState (S p) s caps).
Proof. simpl. now intros ->. Qed.

Lemma star_loop_S (body : mstate -> continuation -> option (gmap nat string))
    (k : continuation) (fuel : nat) (st : mstate) :
  star_loop body k (S fuel) st
  = orelse
      (body st
         (fun st1 =>
            if Nat.eqb (m_pos st1) (m_pos st) then None
            else star_loop body k fuel st1))
      (k st).
Proof. reflexivity. Qed.

(** The greedy loop takes every digit of the run when the rest of the
    pattern succeeds after it. *)
Lemma star_digits (ds tail : string) (k : continuation)
    (caps : gmap nat string) (res : gmap nat string) :
  all_digits ds = true -> starts_with_digit tail = false ->
  forall fuel p,
    (String.length ds <= fuel)%nat ->
    k (MState (p + String.length ds) tail caps) = Some res ->
    star_loop (rmatch (RClass ClsDigit)) k fuel (MState p (ds ++ tail) caps)
    = Some res.
Proof.
  intros Hds Htail. induction ds as [| c ds IH]; intros fuel p Hfuel Hk.
  - simpl in Hk. rewrite Nat.add_0_r in Hk.
    change ("" ++ tail) with tail.
    destruct fuel; [exact Hk|].
    rewrite star_loop_S, rmatch_digit_fail by exact Htail. exact Hk.
  - simpl in Hds. apply andb_prop in Hds as [Hc Hds].
    destruct fuel as [| fuel]; [simpl in Hfuel; lia|].
    change (String c ds ++ tail) with (String c (ds ++ tail)).
    rewrite star_loop_S, rmatch_digit_ok by exact Hc.
    cbn [m_pos].
    replace (Nat.eqb (S p) p) with false
      by (symmetry; apply Nat.eqb_neq; lia).
    rewrite (IH Hds fuel (S p)); [reflexivity | simpl in Hfuel; lia |].
    simpl in Hk. now rewrite Nat.add_succ_r in Hk.
Qed.

Lemma plus_digits (c : ascii) (ds tail : string) (k : continuation)
    (p : nat) (caps res : gmap nat string) :
  is_digit_char c = true -> all_digits ds = true ->
  starts_with_digit tail = false ->
  k (MState (S p + String.length ds) tail caps) = Some res ->
  rmatch (RPlus (RClass ClsDigit)) (MState p (String c ds ++ tail) caps) k
  = Some res.
Proof.
  intros Hc Hds Htail Hk.
  change (rmatch (RPlus (RClass ClsDigit)) (MState p (String c ds ++ tail) caps) k)
    with (rmatch (RClass ClsDigit) (MState p (String c (ds ++ tail)) caps)
            (fun st1 => rmatch (RStar (RClass ClsDigit)) st1 k)).
  rewrite rmatch_digit_ok by exact Hc.
  change (rmatch (RStar (RClass ClsDigit)) (MState (S p) (ds ++ tail) caps) k)
    with (star_loop (rmatch (RClass ClsDigit)) k
            (String.length (ds ++ tail)) (MState (S p) (ds ++ tail) caps)).
  apply star_digits; auto. rewrite length_append. lia.
Qed.

Lemma take_string_append (a b : string) (n : nat) :
  n = String.length a -> take_string n (a ++ b) = a.
Proof. intros ->. apply take_drop_append. Qed.

Lemma exec_from_eq (r : regex) (pos : nat) (s : string) :
  exec_from r pos s
  = orelse
      (rmatch r (MState pos s ∅)
         (fun st' =>
            Some (<[O := consumed (MState pos s ∅) st']> (m_caps st'))))
      (match s with
       | EmptyString => None
       | String _ s' => exec_from r (S pos) s'
       end).
Proof. destruct s; reflexivity. Qed.

Lemma rmatch_group_class (n : nat) (cl : char_class) (a : ascii) (s : string)
    (p : nat) (caps : gmap nat string) (k : continuation) :
  class_mem cl a = true ->
  rmatch (RGroup n (RClass cl)) (MState p (String a s) caps) k
  = k (MState (S p) s (<[n := String a ""]> caps)).
Proof.
  intros H.
  change (rmatch (RGroup n (RClass cl)) (MState p (String a s) caps) k)
    with (if class_mem cl a
          then k (MState (S p) s
                    (<[n := take_string (S p - p) (String a s)]> caps))
          else None).
  rewrite H. replace (S p - p)%nat with 1%nat by lia. reflexivity.
Qed.

Lemma Z_to_string_digits (n : Z) :
  (0 <= n)%Z ->
  exists c ds, Z_to_string n = String c ds
               /\ is_digit_char c = true /\ all_digits ds = true.
Proof.
  intros H. destruct (Z_to_string_nonneg n H) as (d & Hd & E & _).
  destruct (string_of_uint_head d Hd) as (c & ds & E' & Hc).
  pose proof (string_of_uint_all_digits d) as A. rewrite E' in A.
  simpl in A. apply andb_prop in A as [_ A].
  exists c, ds. rewrite E, E'. auto.
Qed.

(** ** calculateInterval and its low limit *)



















(* ===================================================================== *)
(** * Part III — further properties                                       *)
(* ===================================================================== *)

(** ** roundInterval: range, idempotence, monotonicity *)

Lemma roundInterval_in_buckets (d : number) :
  exists z, In z buckets /\ roundInterval d = num z.
Proof.
  unfold roundInterval.
  repeat match goal with
         | |- context [if ?b then _ else _] => destruct b
         end; eexists; (split; [|reflexivity]); vm_compute; tauto.
Qed.

(** X1. Rounding is idempotent: every value [roundInterval] returns is
    rounded to itself. *)
Theorem roundInterval_idempotent (d : number) :
  roundInterval (roundInterval d) = roundInterval d.
Proof.
  destruct (roundInterval_in_buckets d) as (z & Hin & ->).
  vm_compute in Hin.
  repeat (destruct Hin as [<- | Hin]; [reflexivity|]). contradiction.
Qed.

Section Monotone.

Variables p q : Q.
Hypothesis p_le_q : (p <= q)%Q.

Lemma first_match_lower (l : list (Z * Z)) (lo : Z) (d : number) :
  values_sorted lo l = true ->
  exists z, first_match l d = num z /\ (lo <= z)%Z.
Proof.
  revert lo. induction l as [| [t v] l IH]; intros lo H; simpl in *.
  - exists largest_bucket. split; [reflexivity | now apply Z.leb_le].
  - apply andb_prop in H as [Hv Hrest]. apply Z.leb_le in Hv.
    destruct (d <# num t)%js.
    + now exists v.
    + destruct (IH v Hrest) as (z & E & L). exists z. split; [exact E | lia].
Qed.

Lemma first_match_mono (l : list (Z * Z)) (lo : Z) :
  values_sorted lo l = true ->
  exists z1 z2,
    first_match l (Fin p) = num z1 /\ first_match l (Fin q) = num z2
    /\ (z1 <= z2)%Z.
Proof.
  revert lo. induction l as [| [t v] l IH]; intros lo H; simpl in *.
  - exists largest_bucket, largest_bucket. repeat split. lia.
  - apply andb_prop in H as [Hv Hrest].
    destruct (Qltb p (inject_Z t)) eqn:Lp.
    + destruct (Qltb q (inject_Z t)) eqn:Lq.
      * exists v, v. repeat split. lia.
      * destruct (first_match_lower l v (Fin q) Hrest) as (z & E & L).
        now exists v, z.
    + replace (Qltb q (inject_Z t)) with false; [now apply (IH v)|].
      symmetry. apply Qltb_ge. apply Qltb_ge in Lp.
      now apply Qle_trans with p.
Qed.

End Monotone.

(** X2. Rounding is monotone on finite intervals: a longer interval never
    gets a smaller bucket. *)
Theorem roundInterval_monotone (p q : Q) :
  (p <= q)%Q -> num_le (roundInterval (Fin p)) (roundInterval (Fin q)).
Proof.
  intros H. unfold num_le.
  destruct (first_match_mono p q H ladder 0 eq_refl) as (z1 & z2 & E1 & E2 & L).
  rewrite <- roundInterval_first_match in E1, E2. rewrite E1, E2.
  rewrite num_lt_num. now apply Z.ltb_ge.
Qed.

Lemma roundInterval_monotone_witness :
  num_le (roundInterval (Fin 36000)) (roundInterval (Fin (90001 # 2))).
Proof. apply roundInterval_monotone. discriminate. Defined.

(** X3. Without a low limit [calculateInterval] never fails and returns one
    of thirty pairs of a bucket and its label, whatever the range and the
    resolution: the label is never the "less than a millisecond" literal. *)
Theorem calculateInterval_default_bucket (range : TimeRange)
    (resolution : number) :
  exists ms label,
    In (ms, label) bucket_labels
    /\ calculateInterval range resolution None
       = inr (mkIntervalValues (num ms) label).
Proof.
  unfold calculateInterval. fold (raw_interval range resolution).
  generalize (raw_interval range resolution) as d. intros d.
  unfold roundInterval.
  repeat match goal with
         | |- context [if (d <# ?b)%js then _ else _] => destruct (d <# b)%js
         end; eexists _, _; (split; [|vm_compute; reflexivity]);
    vm_compute; tauto.
Qed.

(** ** calculateInterval at the edges *)

Lemma roundInterval_small (d : number) :
  (d <# num 10)%js = true -> roundInterval d = num 1.
Proof. intros H. unfold roundInterval. now rewrite H. Qed.

(** X4. An empty or inverted range ([to] not after [from]) gets the
    smallest bucket at every positive resolution: 1 ms, labelled "1ms". *)
Theorem calculateInterval_empty_range (range : TimeRange) (r : Q) :
  (tr_to range <= tr_from range)%Z -> (0 < r)%Q ->
  calculateInterval range (Fin r) None = inr (mkIntervalValues (num 1) "1ms").
Proof.
  intros Hrange Hr. unfold calculateInterval.
  rewrite roundInterval_small; [reflexivity|].
  rewrite num_sub_num. unfold num_div, num, valueOf.
  replace (Qeq_bool r 0) with false.
  2:{ symmetry. apply Bool.not_true_iff_false. rewrite Qeq_bool_iff.
      intros E. rewrite E in Hr. discriminate Hr. }
  simpl. apply Qltb_lt. rewrite Qred_correct.
  apply Qle_lt_trans with 0%Q; [|reflexivity].
  apply Qle_shift_div_r; [exact Hr|]. rewrite Qmult_0_l.
  change 0%Q with (inject_Z 0). rewrite <- Zle_Qle. lia.
Qed.

Lemma calculateInterval_empty_range_witness :
  calculateInterval (mkTimeRange 5000 5000 (mkRaw (inl 5000%Z) (inl 5000%Z)))
    (Fin 100) None
  = inr (mkIntervalValues (num 1) "1ms").
Proof. apply calculateInterval_empty_range; [simpl; lia | reflexivity]. Defined.

(** X5. A resolution of zero does not fail: the quotient is [Infinity], or
    [NaN] for an empty range, and the result is the largest bucket, one
    year. *)
Theorem calculateInterval_zero_resolution (range : TimeRange) :
  (tr_from range <= tr_to range)%Z ->
  calculateInterval range (num 0) None
  = inr (mkIntervalValues (num 31536000000) "1y").
Proof.
  intros Hrange. unfold calculateInterval.
  rewrite num_sub_num. unfold valueOf.
  assert (E : (num (tr_to range - tr_from range) /# num 0)%js = NaN
              \/ (num (tr_to range - tr_from range) /# num 0)%js = Inf false).
  { unfold num_div, num. change (Qeq_bool (inject_Z 0) 0) with true.
    rewrite Qeq_bool_inject_Z.
    destruct (Z.eqb_spec (tr_to range - tr_from range) 0); [now left|].
    right. f_equal. apply Qsign_neg_false.
    change 0%Q with (inject_Z 0). rewrite <- Zle_Qle. lia. }
  destruct E as [-> | ->]; reflexivity.
Qed.

Lemma calculateInterval_zero_resolution_witness :
  calculateInterval (mkTimeRange 0 3600000 (mkRaw (inl 0%Z) (inl 3600000%Z)))
    (num 0) None
  = inr (mkIntervalValues (num 31536000000) "1y").
Proof. apply calculateInterval_zero_resolution. simpl. lia. Defined.

(** ** From a relative range to a time range and back *)

Lemma unix_subtract (now r : Z) : unix (subtract_s now r) = (unix now - r)%Z.
Proof.
  unfold unix, subtract_s.
  replace (now - r * 1000)%Z with (now + (- r) * 1000)%Z by lia.
  rewrite Z.div_add by lia. lia.
Qed.

(** X6. Converting a relative range to a time range at [now] and back at the
    same [now] returns the relative range: whole seconds are not lost in
    this direction. *)
Theorem relative_round_trip (rel : RelativeTimeRange) (now : DateTime) :
  timeRangeToRelative (relativeToTimeRange rel now) now = rel.
Proof.
  destruct rel as [f t]. unfold timeRangeToRelative, relativeToTimeRange.
  simpl. destruct (Z.eqb_spec t 0) as [->|Ht]; rewrite ?unix_subtract;
    f_equal; lia.
Qed.

(** ** The index and the catalog *)

(** X7. The index holds the presets and nothing else: a key leads to an
    option exactly when that option is a preset of the catalog filed under
    that key; no preset is shadowed by another, the keys being distinct. *)
Theorem rangeIndex_holds_catalog (key : string) (opt : TimeOption) :
  rangeIndex !! key = Some opt <-> In opt catalog /\ frame_key opt = key.
Proof.
  split; [apply rangeIndex_lookup|].
  intros [H <-]. each_preset H; vm_compute; reflexivity.
Qed.

Lemma rangeIndex_holds_catalog_witness :
  rangeIndex !! "now-6h to now"
  = Some (preset "now-6h" "now" "Últimas 6 horas").
Proof.
  apply (proj2 (rangeIndex_holds_catalog "now-6h to now"
                  (preset "now-6h" "now" "Últimas 6 horas"))).
  split; [|reflexivity]. unfold catalog, rangeOptions. simpl. tauto.
Defined.

(** ** describeTextRange: end points and validity *)

Lemma indexOf_from_lower (s sub : string) :
  forall pos, indexOf_from pos s sub = (-1)%Z
              \/ (pos <= indexOf_from pos s sub)%Z.
Proof.
  induction s as [| c s IH]; intros pos; simpl.
  - destruct (starts_with sub ""); [right; lia | now left].
  - destruct (starts_with sub (String c s)); [right; lia|].
    destruct (IH (pos + 1)%Z) as [E | L]; [now left | right; lia].
Qed.

Lemma indexOf_plus_zero (s : string) :
  indexOf s "+" = 0%Z -> exists rest, s = String "+" rest.
Proof.
  unfold indexOf. destruct s as [| c s]; [discriminate|].
  change (indexOf_from 0 (String c s) "+")
    with (if Ascii.eqb "+"%char c && true then 0%Z
          else indexOf_from (0 + 1) s "+").
  destruct (Ascii.eqb_spec "+"%char c) as [<-|Hc].
  - intros _. now exists s.
  - simpl andb. cbv iota. intros H.
    destruct (indexOf_from_lower s "+" (0 + 1)) as [E | L]; lia.
Qed.

Lemma preset_hit_to_now (e : string) (opt : TimeOption) :
  rangeIndex !! (e ++ " to now") = Some opt ->
  opt_from opt = e /\ opt_to opt = "now" /\ opt_invalid opt = None.
Proof.
  intros H. apply rangeIndex_lookup in H as [H K].
  each_preset H; symmetry in K; apply append_inv in K as [Ke Ks];
    vm_compute in Ks; try discriminate Ks; vm_compute in Ke; subst e;
    repeat split.
Qed.

(** X8. The option [describeTextRange] returns always spans from the
    normalised expression to [now], or from [now] to the normalised
    expression when the expression begins with [+]; this holds for presets
    found in the catalog as well as for options built from the pattern or
    marked invalid. *)
Theorem describeTextRange_endpoints (expr : string) :
  let r := describeTextRange expr in
  if (indexOf expr "+" =? 0)%Z
  then opt_from r = "now" /\ opt_to r = normalized expr
  else opt_from r = normalized expr /\ opt_to r = "now".
Proof.
  cbv zeta. destruct (Z.eqb_spec (indexOf expr "+") 0) as [E|E].
  - apply indexOf_plus_zero in E as [rest ->].
    destruct (describeTextRange_plus rest) as (F & T & _). now split.
  - rewrite describeTextRange_unfold. cbv zeta.
    replace (indexOf expr "+" =? 0)%Z with false
      by (symmetry; now apply Z.eqb_neq).
    destruct (rangeIndex !! _) as [opt|] eqn:H.
    + now apply preset_hit_to_now in H as (F & T & _).
    + destruct (exec parts_regex _) as [parts|]; [|now split].
      destruct (spans !! _) as [span|]; now split.
Qed.

(** X9. The three outcomes of [describeTextRange]: the result is marked
    invalid exactly when the catalog has no preset for the normalised
    expression and the pattern does not match it; accordingly
    [isValidTimeSpan] rejects a string exactly when, besides, it begins
    with neither [$] nor [+$]. *)
Theorem describeTextRange_invalid_iff (expr : string) :
  opt_invalid (describeTextRange expr)
  = match rangeIndex !! (normalized expr ++ " to now"),
          exec parts_regex (normalized expr) with
    | None, None => Some true
    | _, _ => None
    end
  /\ isValidTimeSpan expr
     = ((indexOf expr "$" =? 0)%Z || (indexOf expr "+$" =? 0)%Z
        || match rangeIndex !! (normalized expr ++ " to now"),
                 exec parts_regex (normalized expr) with
           | None, None => false
           | _, _ => true
           end).
Proof.
  assert (H : opt_invalid (describeTextRange expr)
              = match rangeIndex !! (normalized expr ++ " to now"),
                      exec parts_regex (normalized expr) with
                | None, None => Some true
                | _, _ => None
                end).
  { rewrite describeTextRange_unfold. cbv zeta.
    destruct (rangeIndex !! _) as [opt|] eqn:L.
    - now apply preset_hit_to_now in L as (_ & _ & I).
    - destruct (exec parts_regex _) as [parts|];
        [destruct (spans !! _) as [span|]|]; now destruct (negb _). }
  split; [exact H|]. unfold isValidTimeSpan. rewrite H.
  destruct ((indexOf expr "$" =? 0)%Z || (indexOf expr "+$" =? 0)%Z);
    [reflexivity|].
  destruct (rangeIndex !! _); [reflexivity|].
  now destruct (exec parts_regex _).
Qed.

(** X10. What [describeTextRange] returns is always a relative range for
    [isRelativeTimeRange]: one of its end points is [now]. *)
Theorem describeTextRange_is_relative (expr : string) :
  let r := describeTextRange expr in
  isRelativeTimeRange (mkRaw (inr (opt_from r)) (inr (opt_to r))) = true.
Proof.
  cbv zeta. pose proof (describeTextRange_endpoints expr) as H. cbv zeta in H.
  unfold isRelativeTimeRange, isRelativeTime. cbn [raw_from raw_to].
  destruct (indexOf expr "+" =? 0)%Z; destruct H as [F T].
  - now rewrite F.
  - rewrite T. apply Bool.orb_true_r.
Qed.

(** ** The pattern of describeTextRange on [now], a sign, an amount, a unit *)

Lemma exec_parts_regex (sign c u : ascii) (ds rest : string) :
  class_mem (ClsSet ["-"; "+"]%char) sign = true ->
  is_digit_char c = true -> all_digits ds = true ->
  is_word_char u = true -> is_digit_char u = false ->
  exists g0,
    exec parts_regex ("now" ++ String sign (String c ds ++ String u rest))
    = Some (<[0%nat := g0]>
              (<[3%nat := String u ""]>
                 (<[2%nat := String c ds]>
                    (<[1%nat := String sign ""]> ∅)))).
Proof.
  intros Hsign Hc Hds Hu Hud. eexists. unfold exec. rewrite exec_from_eq.
  set (X := String c ds ++ String u rest).
  set (k0 := fun st' : mstate => Some (<[0%nat := consumed (MState 0 ("now" ++ String sign X) ∅) st']> (m_caps st'))).
  set (caps1 := <[1%nat := String sign ""]> (∅ : gmap nat string)).
  change (rmatch parts_regex (MState 0 ("now" ++ String sign X) ∅) k0)
    with (if class_mem (ClsSet ["-"; "+"]%char) sign
          then rmatch (RPlus (RClass ClsDigit)) (MState 4 X caps1)
                 (fun st1 =>
                    rmatch (RGroup 3 (RClass ClsWord))
                      (MState (m_pos st1) (m_rest st1)
                         (<[2%nat := consumed (MState 4 X caps1) st1]> (m_caps st1)))
                      k0)
          else None).
  rewrite Hsign. subst X.
  erewrite plus_digits; [reflexivity | exact Hc | exact Hds | exact Hud |].
  cbn [m_pos m_rest m_caps].
  rewrite rmatch_group_class by exact Hu.
  unfold consumed at 1. cbn [m_pos m_rest].
  rewrite take_string_append by (simpl; lia).
  unfold k0. cbn [m_caps]. reflexivity.
Qed.

(** The units of the spans table. *)
Lemma spans_lookup (unit : string) (span : span_info) :
  spans !! unit = Some span ->
  exists u, unit = String u ""
            /\ is_word_char u = true /\ is_digit_char u = false.
Proof.
  intros H. unfold spans in H. apply elem_of_list_to_map_2 in H.
  apply list_elem_of_In in H. simpl in H.
  repeat (destruct H as [H | H];
          [injection H as <- _; eexists; repeat split |]).
  contradiction.
Qed.

Lemma describeTextRange_label_assoc (prefix ts name : string) (n : Z) :
  (if (1 <? n)%Z then (prefix ++ (ts ++ " " ++ name)) ++ "s"
   else prefix ++ (ts ++ " " ++ name))
  = prefix ++ ts ++ " " ++ name ++ (if (1 <? n)%Z then "s" else "").
Proof.
  destruct (1 <? n)%Z.
  - now rewrite !append_assoc.
  - now rewrite append_empty_r.
Qed.

(** X11. An expression [now], a sign, an amount up to [MAX_SAFE_INTEGER]
    and a unit of the spans table is described by its preset when the
    catalog has one and otherwise by a label made of the amount and the unit
    name, with an [s] appended when the amount exceeds 1; whatever follows
    the unit is ignored by the pattern, and the label reads [Last] for
    either sign, the direction being taken from a leading [+] only. *)
Theorem describeTextRange_amount_unit (sign : ascii) (n : Z)
    (unit rest : string) (span : span_info) :
  (0 <= n <= MAX_SAFE_INTEGER)%Z -> sign = "-"%char \/ sign = "+"%char ->
  spans !! unit = Some span ->
  let expr := "now" ++ String sign (Z_to_string n ++ unit ++ rest) in
  describeTextRange expr
  = default
      (mkTimeOption expr "now"
         (span_label "Last " n (span_display span)) (span_section span) None)
      (rangeIndex !! (expr ++ " to now")).
Proof.
  intros [Hn _] Hsign Hspan expr.
  destruct (spans_lookup unit span Hspan) as (u & -> & Hu & Hud).
  destruct (Z_to_string_digits n Hn) as (c & ds & E & Hc & Hds).
  assert (Hcls : class_mem (ClsSet ["-"; "+"]%char) sign = true)
    by (destruct Hsign as [-> | ->]; reflexivity).
  destruct (exec_parts_regex sign c u ds rest Hcls Hc Hds Hu Hud) as [g0 Hexec].
  assert (Hnorm : normalized expr = expr) by reflexivity.
  assert (Hlast : negb (indexOf expr "+" =? 0)%Z = true).
  { apply Bool.negb_true_iff, Z.eqb_neq. unfold indexOf, expr.
    change (indexOf_from 0 ("now" ++ String sign (Z_to_string n ++ String u "" ++ rest)) "+")
      with (indexOf_from (0 + 1) ("ow" ++ String sign (Z_to_string n ++ String u "" ++ rest)) "+").
    destruct (indexOf_from_lower
                ("ow" ++ String sign (Z_to_string n ++ String u "" ++ rest))
                "+" (0 + 1)); lia. }
  rewrite describeTextRange_unfold. cbv zeta. rewrite Hnorm, Hlast.
  destruct (rangeIndex !! _) as [opt|]; [reflexivity|]. simpl default.
  unfold expr at 1. rewrite E.
  change (String c ds ++ String u "" ++ rest) with (String c ds ++ String u rest).
  rewrite Hexec. unfold group.
  rewrite lookup_insert_ne, lookup_insert_eq by discriminate. simpl default.
  rewrite Hspan.
  rewrite lookup_insert_ne, lookup_insert_ne, lookup_insert_eq by discriminate.
  simpl default. rewrite <- E, parseInt_Z_to_string by exact Hn.
  rewrite toString_num. unfold num_gt. rewrite num_lt_num.
  cbn [opt_from opt_to opt_invalid]. f_equal.
  apply describeTextRange_label_assoc.
Qed.

Lemma describeTextRange_amount_unit_witness :
  describeTextRange "now-13h/h"
  = mkTimeOption "now-13h/h" "now" "Last 13 horas" None None.
Proof.
  exact (describeTextRange_amount_unit "-" 13 "h" "/h" (mkSpan "hora" None)
           ltac:(unfold MAX_SAFE_INTEGER; lia) (or_introl eq_refl) eq_refl).
Defined.

(** ** Shorthand expressions *)

Lemma indexOf_now_prefixed (s : string) :
  indexOf ("now" ++ s) "now" = 0%Z
  /\ (indexOf ("now" ++ s) "+" =? 0)%Z = false.
Proof.
  split; [reflexivity|]. apply Z.eqb_neq. unfold indexOf.
  change (indexOf_from 0 ("now" ++ s) "+")
    with (indexOf_from (0 + 1) ("ow" ++ s) "+").
  destruct (indexOf_from_lower ("ow" ++ s) "+" (0 + 1)); lia.
Qed.

(** X12. An expression without [now] that does not begin with [+] is
    shorthand for the past expression: [describeTextRange(expr)] is
    [describeTextRange('now-' + expr)]. *)
Theorem describeTextRange_shorthand (expr : string) :
  indexOf expr "now" = (-1)%Z -> indexOf expr "+" <> 0%Z ->
  describeTextRange expr = describeTextRange ("now-" ++ expr).
Proof.
  intros Hnow Hplus.
  assert (N1 : normalized expr = "now-" ++ expr).
  { unfold normalized. rewrite Hnow.
    replace (indexOf expr "+" =? 0)%Z with false
      by (symmetry; now apply Z.eqb_neq).
    reflexivity. }
  destruct (indexOf_now_prefixed (String "-" expr)) as [I1 I2].
  change ("now" ++ String "-" expr) with ("now-" ++ expr) in I1, I2.
  assert (N2 : normalized ("now-" ++ expr) = "now-" ++ expr).
  { unfold normalized. now rewrite I1. }
  rewrite (describeTextRange_unfold expr),
    (describeTextRange_unfold ("now-" ++ expr)).
  cbv zeta. rewrite N1, N2, I2.
  replace (indexOf expr "+" =? 0)%Z with false
    by (symmetry; now apply Z.eqb_neq).
  reflexivity.
Qed.

Lemma describeTextRange_shorthand_witness :
  describeTextRange "6h" = describeTextRange "now-6h".
Proof. apply describeTextRange_shorthand; vm_compute; congruence. Defined.

Lemma indexOf_no_n (s : string) :
  no_char "n" s = true -> forall pos, indexOf_from pos s "now" = (-1)%Z.
Proof.
  induction s as [| c s IH]; intros H pos; [reflexivity|].
  cbn [no_char] in H. apply andb_prop in H as [Hc Hs].
  apply Bool.negb_true_iff in Hc.
  change (indexOf_from pos (String c s) "now")
    with (if Ascii.eqb "n"%char c && starts_with "ow" s then pos
          else indexOf_from (pos + 1) s "now").
  rewrite Ascii.eqb_sym, Hc. now apply IH.
Qed.

Lemma no_char_append (a : ascii) (s t : string) :
  no_char a s = true -> no_char a t = true -> no_char a (s ++ t) = true.
Proof.
  induction s as [| c s IH]; intros Hs Ht; [exact Ht|].
  cbn [no_char] in Hs. apply andb_prop in Hs as [Hc Hs].
  change (String c s ++ t) with (String c (s ++ t)). cbn [no_char].
  now rewrite Hc, IH.
Qed.

Lemma digits_no_n (s : string) : all_digits s = true -> no_char "n" s = true.
Proof.
  induction s as [| c s IH]; [reflexivity|]. cbn [all_digits no_char].
  intros H. apply andb_prop in H as [Hc Hs]. rewrite (IH Hs).
  destruct c as [[] [] [] [] [] [] [] []]; vm_compute in Hc;
    try discriminate Hc; reflexivity.
Qed.

Lemma spans_unit_no_n (unit : string) (span : span_info) :
  spans !! unit = Some span -> no_char "n" unit = true.
Proof.
  intros H. unfold spans in H. apply elem_of_list_to_map_2 in H.
  apply list_elem_of_In in H. simpl in H.
  repeat (destruct H as [H | H]; [injection H as <- _; reflexivity |]).
  contradiction.
Qed.

(** X13. A leading [+], an amount up to [MAX_SAFE_INTEGER] and a unit of
    the spans table give the future range from [now], labelled [Next] with
    the amount and the unit name and an [s] when the amount exceeds 1; no
    preset is consulted. *)
Theorem describeTextRange_next (n : Z) (unit : string) (span : span_info) :
  (0 <= n <= MAX_SAFE_INTEGER)%Z -> spans !! unit = Some span ->
  describeTextRange ("+" ++ Z_to_string n ++ unit)
  = mkTimeOption "now" ("now+" ++ Z_to_string n ++ unit)
      (span_label "Next " n (span_display span)) (span_section span) None.
Proof.
  intros [Hn _] Hspan.
  pose proof (spans_unit_no_n unit span Hspan) as Hnn.
  destruct (spans_lookup unit span Hspan) as (u & -> & Hu & Hud).
  destruct (Z_to_string_digits n Hn) as (c & ds & E & Hc & Hds).
  destruct (exec_parts_regex "+" c u ds "" eq_refl Hc Hds Hu Hud) as [g0 Hexec].
  change ("+" ++ Z_to_string n ++ String u "")
    with (String "+" (Z_to_string n ++ String u "")).
  assert (Hnorm : normalized (String "+" (Z_to_string n ++ String u ""))
                  = "now" ++ String "+" (Z_to_string n ++ String u "")).
  { unfold normalized, indexOf.
    change (indexOf_from 0 (String "+" (Z_to_string n ++ String u "")) "now")
      with (indexOf_from (0 + 1) (Z_to_string n ++ String u "") "now").
    rewrite indexOf_no_n; [reflexivity|].
    apply no_char_append; [|exact Hnn].
    apply digits_no_n. rewrite E. cbn [all_digits]. now rewrite Hc, Hds. }
  pose proof (plus_not_in_index (Z_to_string n ++ String u "")) as Hmiss.
  rewrite describeTextRange_unfold. cbv zeta.
  rewrite Hmiss, plus_is_not_last, Hnorm. rewrite E at 1. rewrite Hexec.
  unfold group.
  rewrite lookup_insert_ne, lookup_insert_eq by discriminate. simpl default.
  rewrite Hspan.
  rewrite lookup_insert_ne, lookup_insert_ne, lookup_insert_eq by discriminate.
  simpl default. rewrite <- E, parseInt_Z_to_string by exact Hn.
  rewrite toString_num. unfold num_gt. rewrite num_lt_num.
  cbn [opt_from opt_to opt_invalid]. f_equal.
  apply describeTextRange_label_assoc.
Qed.

Lemma describeTextRange_next_witness :
  describeTextRange "+1w"
  = mkTimeOption "now" "now+1w" "Next 1 semana" None None.
Proof.
  exact (describeTextRange_next 1 "w" (mkSpan "semana" None)
           ltac:(unfold MAX_SAFE_INTEGER; lia) eq_refl).
Defined.

(** ** describeTimeRange on ranges of two expressions *)

Lemma preset_hit_normalized (e : string) (opt : TimeOption) :
  rangeIndex !! (e ++ " to now") = Some opt -> normalized e = e.
Proof.
  intros H. apply rangeIndex_lookup in H as [H K].
  each_preset H; symmetry in K; apply append_inv in K as [Ke Ks];
    vm_compute in Ks; try discriminate Ks; vm_compute in Ke; subst e;
    reflexivity.
Qed.

Section DescribeTimeRangeProperties.

Variable TimeZone : Type.
Variable DateTime_toString : DateTime -> string.
Variable dateTimeFormat : DateTime -> option TimeZone -> string.
Variable dateTimeFormatTimeAgo : DateTime -> option TimeZone -> string.
Variable dateMath_parse : string -> bool -> option DateTime.

Local Abbreviation describe :=
  (describeTimeRange TimeZone DateTime_toString dateTimeFormat
     dateTimeFormatTimeAgo dateMath_parse).

(** X14. For a range from an expression to [now], [describeTimeRange] is
    the label of [describeTextRange] on that expression, preset or not, and
    consults neither the formatter nor the date parser. *)
Theorem describeTimeRange_to_now (from : string) (timeZone : option TimeZone) :
  describe (mkRaw (inr from) (inr "now")) timeZone
  = opt_display (describeTextRange from).
Proof.
  unfold describeTimeRange. cbn [raw_from raw_to raw_toString].
  change (from ++ " to " ++ "now") with (from ++ " to now").
  destruct (rangeIndex !! (from ++ " to now")) as [opt|] eqn:H;
    [|reflexivity].
  rewrite describeTextRange_unfold. cbv zeta.
  now rewrite (preset_hit_normalized from opt H), H.
Qed.

(** X15. A range made of the two expressions of a preset is described by
    the display label of that preset. *)
Theorem describeTimeRange_preset (frame : TimeOption)
    (timeZone : option TimeZone) :
  In frame catalog ->
  describe (mkRaw (inr (opt_from frame)) (inr (opt_to frame))) timeZone
  = opt_display frame.
Proof.
  intros H. unfold describeTimeRange.
  cbn [raw_from raw_to raw_toString]. fold (frame_key frame).
  assert (L : rangeIndex !! frame_key frame = Some frame)
    by (now apply rangeIndex_holds_catalog).
  now rewrite L.
Qed.

End DescribeTimeRangeProperties.

Lemma describeTimeRange_preset_witness :
  describeTimeRange unit (fun _ => "") (fun _ _ => "") (fun _ _ => "")
    (fun _ _ => None) (mkRaw (inr "now-1d/d") (inr "now-1d/d")) None
  = "Ontem".
Proof.
  apply (describeTimeRange_preset unit (fun _ => "") (fun _ _ => "")
           (fun _ _ => "") (fun _ _ => None)
           (preset "now-1d/d" "now-1d/d" "Ontem") None).
  unfold catalog, rangeOptions. simpl. tauto.
Defined.
